(** * ScannerApp: the bounded concurrent classification pipeline

    A shallow embedding of [ScannerApp.py]: the retrying POST ([safe_post]),
    the per-item classification with its tolerant response parsing
    ([check_software_risk_async]) and the worker loop that republishes the
    results as signals ([AsyncWorker.async_run]).

    Python values are the values [json.loads] can produce, exceptions are an
    explicit [result] type, and the effects of a coroutine (POSTs, sleeps,
    taking and giving back the semaphore) are recorded in a log of actions.
    [json.loads], the remote service and the order in which tasks finish are
    not part of the source: they are parameters of the development. *)

From Stdlib Require Import ZArith Floats Uint63.
From stdpp Require Import base option strings list gmap.

Set Warnings "-register-all".
Open Scope Z_scope.

(** ** Configuration (the CONFIG block of the source) *)

Definition PERPLEXITY_CHAT_URL : string := "https://api.perplexity.ai/chat/completions".
Definition MODEL_NAME : string := "sonar".
Definition MAX_CONCURRENT_REQUESTS : nat := 5.
Definition RETRY_DELAY : Z := 5.
Definition MAX_RETRIES : nat := 3.

(** ** Python values and exceptions *)

(** The objects [json.loads] returns: [None], [bool], [int], [float], [str],
    [list] and [dict] with string keys.  A [str] is modelled as a Rocq
    [string], one character per element. *)
Inductive pyval :=
| PNone
| PBool (b : bool)
| PInt (z : Z)
| PFloat (f : float)
| PStr (s : string)
| PList (l : list pyval)
| PDict (d : gmap string pyval).

(** Subclasses of [Exception] that the modelled code can meet.  Everything a
    [try ... except Exception] of the source catches is one of these. *)
Inductive exn :=
| KeyError
| IndexError
| TypeError
| AttributeError
| JSONDecodeError
| ClientError
| TimeoutError
| UnicodeDecodeError.

(** The outcome of evaluating a Python expression: a value or a raised
    exception. *)
Inductive result (A : Type) :=
| Return (a : A)
| Raise (e : exn).
Arguments Return {A} a.
Arguments Raise {A} e.

#[global] Instance result_ret : MRet result := fun A a => Return a.
#[global] Instance result_bind : MBind result := fun A B k c =>
  match c with
  | Return a => k a
  | Raise e => Raise e
  end.

(** [try: c except Exception: h] *)
Definition try_except {A} (c : result A) (h : A) : A :=
  match c with
  | Return a => a
  | Raise _ => h
  end.

(** [v[k]] for a string key [k]. *)
Definition getitem_key (v : pyval) (k : string) : result pyval :=
  match v with
  | PDict d =>
      match d !! k with
      | Some x => Return x
      | None => Raise KeyError
      end
  | _ => Raise TypeError
  end.

(** [v[i]] for a non-negative integer [i].  The keys of a dict that came out
    of [json.loads] are strings, so an integer is never among them. *)
Definition getitem_index (v : pyval) (i : nat) : result pyval :=
  match v with
  | PList l =>
      match l !! i with
      | Some x => Return x
      | None => Raise IndexError
      end
  | PStr s =>
      match String.get i s with
      | Some c => Return (PStr (String c EmptyString))
      | None => Raise IndexError
      end
  | PDict _ => Raise KeyError
  | _ => Raise TypeError
  end.

(** [v.get(k, dflt)]: only a dict has the method. *)
Definition dict_get (v : pyval) (k : string) (dflt : pyval) : result pyval :=
  match v with
  | PDict d => Return (default dflt (d !! k))
  | _ => Raise AttributeError
  end.

(** ** The remote service and the effects of a task *)

(** The arguments of one [session.post(...)]. *)
Record request := {
  url : string;
  json_payload : pyval;
  headers : gmap string string;
  timeout : Z
}.

(** What one POST brings back: an exception before any status is known, or a
    response with its [status] and what [await resp.text()] gives when the
    body is read (the body is read over the network, so this can raise as
    well). *)
Inductive reply :=
| Refused (e : exn)
| Status (status : Z) (text : result string).

(** The service seen from one call of [safe_post]: the reply to its POST
    number [k], counted from 0. *)
Definition session := request -> nat -> reply.

(** Observable actions of a classification task. *)
Inductive action :=
| Acquire
| Post (r : request)
| Sleep (seconds : Z)
| Release.

(** A coroutine: the actions it performs, in order, and its outcome. *)
Definition task (A : Type) : Type := list action * A.

(** ** [safe_post] *)

(** How one pass through the loop body ends: fall through to the next
    iteration, or [return]. *)
Inductive flow (A : Type) :=
| Next
| Done (a : A).
Arguments Next {A}.
Arguments Done {A} a.

(** The statements inside [try:] for one [attempt]. *)
Definition safe_post_try (s : session) (r : request) (delay : Z) (attempt : nat)
  : task (result (flow (option Z * string))) :=
  match s r attempt with
  | Refused e => ([Post r], Raise e)
  | Status status text =>
      if status =? 429
      then ([Post r; Sleep (delay * (Z.of_nat attempt + 1))], Return Next)
      else match text with
           | Return body => ([Post r], Return (Done (Some status, body)))
           | Raise e => ([Post r], Raise e)
           end
  end.

(** One iteration: the [try] block and its [except Exception] handler. *)
Definition safe_post_attempt (s : session) (r : request) (delay : Z) (attempt : nat)
  : task (flow (option Z * string)) :=
  let '(log, c) := safe_post_try s r delay attempt in
  match c with
  | Return f => (log, f)
  | Raise _ => (log ++ [Sleep (delay * (Z.of_nat attempt + 1))], Next)
  end.

(** [for attempt in attempts: ...] followed by the final [return]. *)
Fixpoint safe_post_loop (s : session) (r : request) (delay : Z) (attempts : list nat)
  : task (option Z * string) :=
  match attempts with
  | [] => ([], (None, "Max retries exceeded"%string))
  | attempt :: rest =>
      let '(log, f) := safe_post_attempt s r delay attempt in
      match f with
      | Done v => (log, v)
      | Next =>
          let '(log', v) := safe_post_loop s r delay rest in
          (log ++ log', v)
      end
  end.

Definition safe_post (s : session) (json_payload : pyval) (headers : gmap string string)
    (retries : nat) (delay : Z) : task (option Z * string) :=
  let r := {| url := PERPLEXITY_CHAT_URL; json_payload := json_payload;
              headers := headers; timeout := 20 |} in
  safe_post_loop s r delay (seq 0 retries).

(** ** [check_software_risk_async] *)

(** The f-string that asks for the verdict on [software_name]. *)
Definition prompt_for (software_name : string) : string :=
  ("Check if the software '" +:+ software_name +:+ "' is harmful. "
   +:+ "If harmful, provide root cause analysis. "
   +:+ "Respond in valid JSON with keys: 'safety' (SAFE/HARMFUL), 'rca'.")%string.

Definition headers_for (api_key : string) : gmap string string :=
  <["Authorization" := ("Bearer " +:+ api_key)%string]>
    (<["Content-Type" := "application/json"%string]> ∅).

Definition payload_for (software_name : string) : pyval :=
  PDict (<["model" := PStr MODEL_NAME]>
        (<["messages" := PList [PDict (<["role" := PStr "user"]>
                                      (<["content" := PStr (prompt_for software_name)]> ∅))]]>
        (<["temperature" := PInt 0]> ∅))).

(** The request every POST of the task for [software_name] sends. *)
Definition request_for (software_name api_key : string) : request :=
  {| url := PERPLEXITY_CHAT_URL; json_payload := payload_for software_name;
     headers := headers_for api_key; timeout := 20 |}.

Definition UNKNOWN : pyval := PStr "UNKNOWN".

Section Classification.

(** [json.loads] on a string: the parsed value, or the exception raised. *)
Variable json_loads : string -> result pyval.

(** [json.loads(v)] on an arbitrary value: among the values at hand only a
    [str] is accepted. *)
Definition loads (v : pyval) : result pyval :=
  match v with
  | PStr s => json_loads s
  | _ => Raise TypeError
  end.

(** [data['choices'][0]['message']['content']] *)
Definition message_content (data : pyval) : result pyval :=
  choices ← getitem_key data "choices";
  choice ← getitem_index choices 0;
  message ← getitem_key choice "message";
  getitem_key message "content".

(** The statements inside [try:] of the response parsing. *)
Definition parse_try (text_response : string) : result (pyval * pyval) :=
  data ← json_loads text_response;
  text ← message_content data;
  result ← loads text;
  safety ← dict_get result "safety" UNKNOWN;
  rca ← dict_get result "rca" (PStr EmptyString);
  mret (safety, rca).

(** The [try ... except Exception] around them. *)
Definition parse_response (text_response : string) : pyval * pyval :=
  try_except (parse_try text_response) (UNKNOWN, PStr "Could not parse response").

Definition check_software_risk_async (s : session) (software_name api_key : string)
  : task (result (string * pyval * pyval)) :=
  let headers := headers_for api_key in
  let payload := payload_for software_name in
  let '(log, (status, text_response)) := safe_post s payload headers MAX_RETRIES RETRY_DELAY in
  ([Acquire] ++ log ++ [Release],
   if bool_decide (status ≠ Some 200)
   then Return (software_name, UNKNOWN, PStr "Error fetching data")
   else let '(safety, rca) := parse_response text_response in
        Return (software_name, safety, rca)).

End Classification.

(** ** [AsyncWorker.async_run] *)

(** The two signals of [WorkerSignals], with the arguments of each [emit].
    Emitting is modelled as appending to the list of signals sent so far;
    how the signal reaches its slot is outside the source. *)
Inductive signal :=
| update_row (row : nat) (safety rca : pyval)
| progress (percent : Z).

(** [update_row = pyqtSignal(int, str, str)]: what [emit] takes for an
    argument declared [str] is a string or [None]; on any other object it
    raises [TypeError]. *)
Definition emittable (v : pyval) : bool :=
  match v with
  | PStr _ | PNone => true
  | _ => false
  end.

(** An [int] below [2^53] as a [float] (exact in that range). *)
Definition float_of_Z (z : Z) : float := PrimFloat.of_uint63 (Uint63.of_Z z).

(** [a / b] on two ints is true division: the quotient as a [float]. *)
Definition true_div (a b : Z) : float := PrimFloat.div (float_of_Z a) (float_of_Z b).

(** [int(f)] truncates towards zero.  It raises on an infinity or a NaN,
    which a quotient of a count by a larger count, times 100, never is; the
    model gives 0 there. *)
Definition int_of_float (f : float) : Z :=
  match Prim2SF f with
  | S754_finite sign m e =>
      let magnitude := if 0 <=? e then Z.pos m * 2 ^ e else Z.pos m / 2 ^ (- e) in
      if sign then - magnitude else magnitude
  | _ => 0
  end.

(** [int((i+1)/len(self.software_list)*100)] *)
Definition progress_percent (i total : nat) : Z :=
  int_of_float (PrimFloat.mul (true_div (Z.of_nat i + 1) (Z.of_nat total)) (float_of_Z 100)).

(** [for i, task in enumerate(...)]: [completed] holds the outcomes of the
    tasks in the order they finish, [i] is the position in that order.
    Awaiting a task that raised would raise out of the loop, and so does
    [update_row.emit] on a safety or an rca it does not take: nothing is
    emitted for that task nor for the ones after it. *)
Fixpoint emit_loop (total i : nat) (completed : list (result (string * pyval * pyval)))
  : list signal * result () :=
  match completed with
  | [] => ([], Return ())
  | Raise e :: _ => ([], Raise e)
  | Return (software_name, safety, rca) :: rest =>
      if emittable safety && emittable rca
      then let '(signals, r) := emit_loop total (S i) rest in
           (update_row i safety rca :: progress (progress_percent i total) :: signals, r)
      else ([], Raise TypeError)
  end.

Section Worker.

Variable json_loads : string -> result pyval.

(** The coroutines of the list comprehension, one per entry of
    [software_list], in input order.  [service k] is the remote service as
    the task of entry [k] meets it. *)
Definition tasks_of (software_list : list (string * string)) (api_key : string)
    (service : nat -> session) : list (task (result (string * pyval * pyval))) :=
  imap (fun k s => check_software_risk_async json_loads (service k) s.1 api_key) software_list.

(** [asyncio.as_completed(tasks)]: the tasks as they finish.  [order] lists
    the positions of the tasks in [tasks] in the order of completion, a
    permutation of [0 .. len(tasks) - 1]. *)
Definition as_completed {A} (tasks : list A) (order : list nat) : list A :=
  omap (fun k => tasks !! k) order.

Definition async_run (software_list : list (string * string)) (api_key : string)
    (service : nat -> session) (order : list nat) : list signal * result () :=
  let tasks := tasks_of software_list api_key service in
  emit_loop (length software_list) 0 (snd <$> as_completed tasks order).

End Worker.

(** The rows named by the [update_row] signals, and the values of the
    [progress] signals, in emission order. *)
Definition rows_of (signals : list signal) : list nat :=
  omap (fun sg => match sg with update_row row _ _ => Some row | _ => None end) signals.

Definition percents_of (signals : list signal) : list Z :=
  omap (fun sg => match sg with progress p => Some p | _ => None end) signals.

(** ** The event loop and the semaphore *)

(** A task inside the event loop: the actions it has still to perform and
    whether it is inside [async with semaphore]. *)
Record worker := {
  todo : list action;
  holds : bool
}.

(** [permits] is the value of the [asyncio.Semaphore]. *)
Record loop_state := {
  permits : nat;
  workers : list worker
}.

(** The event loop lets task [k] perform its next action.  [acquire()]
    succeeds only while the value of the semaphore is positive and lowers it;
    otherwise the task stays suspended and cannot be chosen.  Leaving the
    [async with] block raises the value again. *)
Definition advance (k : nat) (st : loop_state) : option loop_state :=
  w ← workers st !! k;
  match todo w with
  | [] => None
  | Acquire :: rest =>
      match permits st with
      | O => None
      | S p => Some {| permits := p;
                       workers := <[k := {| todo := rest; holds := true |}]> (workers st) |}
      end
  | Release :: rest =>
      Some {| permits := S (permits st);
              workers := <[k := {| todo := rest; holds := false |}]> (workers st) |}
  | _ :: rest =>
      Some {| permits := permits st;
              workers := <[k := {| todo := rest; holds := holds w |}]> (workers st) |}
  end.

(** An interleaving: the tasks chosen by the event loop, one action each. *)
Fixpoint run (schedule : list nat) (st : loop_state) : option loop_state :=
  match schedule with
  | [] => Some st
  | k :: rest => st' ← advance k st; run rest st'
  end.

(** [semaphore = asyncio.Semaphore(MAX_CONCURRENT_REQUESTS)] and the tasks of
    the batch, none of them started. *)
Definition dispatch {A} (tasks : list (task A)) : loop_state :=
  {| permits := MAX_CONCURRENT_REQUESTS;
     workers := (fun t => {| todo := t.1; holds := false |}) <$> tasks |}.

Definition occupancy (w : worker) : nat := if holds w then 1%nat else 0%nat.

(** The number of tasks inside [async with semaphore], where the request and
    its retries happen. *)
Definition in_flight (st : loop_state) : nat := sum_list_with occupancy (workers st).

(** ** Vocabulary of the statements *)

(** A reply after which [safe_post] goes on to the next attempt: an exception
    before the status, status 429, or an exception while the body of a
    response with another status is read. *)
Definition retryable (rp : reply) : bool :=
  match rp with
  | Refused _ => true
  | Status status (Return _) => status =? 429
  | Status status (Raise _) => true
  end.

(** A service that answers the POSTs of one call with [replies], in order,
    and refuses the connection after the last of them. *)
Definition scripted (replies : list reply) : session :=
  fun _ k => default (Refused ClientError) (replies !! k).

(** The log of [count] failed attempts in a row, the first of them being
    attempt number [first] (counted from 0): each one a POST followed by a
    sleep of [delay] times the attempt number counted from 1. *)
Definition backoff (r : request) (delay : Z) (first count : nat) : list action :=
  flat_map (fun attempt => [Post r; Sleep (delay * (Z.of_nat attempt + 1))]) (seq first count).

Definition posts_of (log : list action) : list request :=
  omap (fun a => match a with Post r => Some r | _ => None end) log.

Definition sleeps_of (log : list action) : list Z :=
  omap (fun a => match a with Sleep d => Some d | _ => None end) log.

(** The envelope of a chat-completion reply as the specification words it: a
    top-level object with a list of choices whose first element is an object
    with a message, itself an object with a content field. *)
Definition has_content (data content : pyval) : Prop :=
  exists d first others m c,
    data = PDict d /\ d !! "choices"%string = Some (PList (first :: others)) /\
    first = PDict m /\ m !! "message"%string = Some (PDict c) /\
    c !! "content"%string = Some content.

Definition could_not_parse : pyval * pyval := (UNKNOWN, PStr "Could not parse response").

(** What the consumer of [update_row] relies on when it writes the verdict
    into table row [row], which shows entry [row] of the software list: the
    verdict is the one of that entry. *)
Definition rows_identify (outcomes : list (result (string * pyval * pyval)))
    (signals : list signal) : Prop :=
  forall row safety rca,
    update_row row safety rca ∈ signals ->
    exists name, outcomes !! row = Some (Return (name, safety, rca)).

(** A task that ended with [return software_name, safety, rca]. *)
Definition returned (outcome : result (string * pyval * pyval)) : Prop :=
  exists software_name safety rca, outcome = Return (software_name, safety, rca).

(** A task whose safety and rca are objects that [update_row.emit] takes. *)
Definition verdict_emittable (outcome : result (string * pyval * pyval)) : bool :=
  match outcome with
  | Return (_, safety, rca) => emittable safety && emittable rca
  | Raise _ => true
  end.

(** The percentage of the specification: [floor(100 * completed / total)]. *)
Definition floor_percent (completed total : nat) : Z :=
  100 * Z.of_nat completed / Z.of_nat total.

Fixpoint nondecreasing (l : list Z) : bool :=
  match l with
  | x :: (y :: _) as rest => (x <=? y) && nondecreasing rest
  | _ => true
  end.

(** The progress values of a batch of [total] entries, checked one by one:
    each lies in [0, 100], they never decrease, the last one is 100, and
    each is the percentage of the specification or one below it. *)
Definition progress_checked (total : nat) : bool :=
  let percents := (fun i => progress_percent i total) <$> seq 0 total in
  forallb (fun p => (0 <=? p) && (p <=? 100)) percents
  && nondecreasing percents
  && bool_decide (last percents = Some 100)
  && forallb (fun i => let p := progress_percent i total in
                       (p =? floor_percent (S i) total) || (p =? floor_percent (S i) total - 1))
       (seq 0 total).

(** Actions that belong to the request itself. *)
Definition is_io (a : action) : bool :=
  match a with
  | Post _ | Sleep _ => true
  | _ => false
  end.

(** Where a task of the batch can be: finished, not started yet, or inside
    the [async with] block with the rest of its request still to do. *)
Definition worker_ok (w : worker) : Prop :=
  (holds w = false /\ todo w = [])
  \/ (holds w = false /\
      exists body, todo w = Acquire :: body ++ [Release] /\ forallb is_io body = true)
  \/ (holds w = true /\
      exists body, todo w = body ++ [Release] /\ forallb is_io body = true).

(** The semaphore accounts for the tasks inside the block, and every task is
    at one of the three places. *)
Definition loop_ok (st : loop_state) : Prop :=
  (permits st + in_flight st = MAX_CONCURRENT_REQUESTS)%nat /\ Forall worker_ok (workers st).

(** ** Sample replies of the service *)

Module Sample.

(** The double quote character, and a string between double quotes. *)
Definition dq : string := String (Ascii.ascii_of_nat 34) EmptyString.
Definition quoted (s : string) : string := (dq +:+ s +:+ dq)%string.

(** A JSON string literal for [s]: every double quote inside is escaped. *)
Fixpoint escaped (s : string) : string :=
  match s with
  | EmptyString => EmptyString
  | String c rest =>
      if Ascii.eqb c (Ascii.ascii_of_nat 34)
      then String (Ascii.ascii_of_nat 92) (String c (escaped rest))
      else String c (escaped rest)
  end.

(** The text of a chat-completion reply whose message content is [content]:
    [{"choices": [{"message": {"content": "..."}}]}]. *)
Definition envelope_text (content : string) : string :=
  ("{" +:+ quoted "choices" +:+ ": [{" +:+ quoted "message" +:+ ": {"
   +:+ quoted "content" +:+ ": " +:+ quoted (escaped content) +:+ "}}]}")%string.

Definition envelope (content : pyval) : pyval :=
  PDict {[ "choices"%string := PList [PDict {[ "message"%string :=
    PDict {[ "content"%string := content ]} ]}] ]}.

(** [{"safety": "<safety>", "rca": "<rca>"}] and its value. *)
Definition verdict_text (safety rca : string) : string :=
  ("{" +:+ quoted "safety" +:+ ": " +:+ quoted safety +:+ ", "
   +:+ quoted "rca" +:+ ": " +:+ quoted rca +:+ "}")%string.

Definition verdict (safety rca : string) : pyval :=
  PDict (<["safety"%string := PStr safety]> {[ "rca"%string := PStr rca ]}).

(** [{"safety": 1, "rca": "score only"}]: a verdict whose safety is a
    number, and its value. *)
Definition numeric_verdict_text : string :=
  ("{" +:+ quoted "safety" +:+ ": 1, " +:+ quoted "rca" +:+ ": " +:+ quoted "score only"
   +:+ "}")%string.

Definition numeric_verdict : pyval :=
  PDict (<["safety"%string := PInt 1]> {[ "rca"%string := PStr "score only" ]}).

(** The documents used below, each with the value [json.loads] gives. *)
Definition documents : list (string * pyval) :=
  [ (verdict_text "SAFE" "none", verdict "SAFE" "none");
    (numeric_verdict_text, numeric_verdict);
    (envelope_text numeric_verdict_text, envelope (PStr numeric_verdict_text));
    (verdict_text "HARMFUL" "bundles adware", verdict "HARMFUL" "bundles adware");
    (verdict_text "SUSPICIOUS" "unsigned", verdict "SUSPICIOUS" "unsigned");
    ("{}"%string, PDict ∅);
    (envelope_text (verdict_text "SAFE" "none"),
     envelope (PStr (verdict_text "SAFE" "none")));
    (envelope_text (verdict_text "HARMFUL" "bundles adware"),
     envelope (PStr (verdict_text "HARMFUL" "bundles adware")));
    (envelope_text (verdict_text "SUSPICIOUS" "unsigned"),
     envelope (PStr (verdict_text "SUSPICIOUS" "unsigned")));
    (envelope_text "{}", envelope (PStr "{}"));
    (envelope_text "no verdict", envelope (PStr "no verdict")) ].

(** [json.loads] on the documents above; the other strings the examples
    hand to it ("no verdict", "<html>") are not JSON. *)
Definition json_loads (s : string) : result pyval :=
  match (list_to_map documents : gmap string pyval) !! s with
  | Some v => Return v
  | None => Raise JSONDecodeError
  end.

(** A batch of three entries, each answered at its first POST with a
    different verdict. *)
Definition batch : list (string * string) :=
  [("vim", "9.1"); ("curl", "8.5"); ("git", "2.43")]%string.

Definition batch_service (k : nat) : session :=
  scripted [Status 200 (Return (envelope_text
    (default (verdict_text "SAFE" "none")
       ([verdict_text "SAFE" "none"; verdict_text "SUSPICIOUS" "unsigned";
         verdict_text "HARMFUL" "bundles adware"] !! k))))].

(** A batch of fifty entries, every request answered with status 500. *)
Definition fifty : list (string * string) := replicate 50 ("pkg", "1.0")%string.

Definition failing_service (k : nat) : session :=
  scripted [Status 500 (Return "Internal Server Error"%string)].

(** A batch of six entries, one more than the semaphore admits. *)
Definition six : list (string * string) := replicate 6 ("pkg", "1.0")%string.



End Sample.

(** ** Further vocabulary *)

(** The sum of a list of integers, as for the seconds slept by a call. *)
Definition total (l : list Z) : Z := foldr Z.add 0 l.

Definition acquires_of (log : list action) : nat :=
  length (List.filter (fun a => match a with Acquire => true | _ => false end) log).

Definition releases_of (log : list action) : nat :=
  length (List.filter (fun a => match a with Release => true | _ => false end) log).

(** The actions the tasks of the batch have still to perform. *)
Definition remaining (st : loop_state) : nat :=
  sum_list_with (fun w => length (todo w)) (workers st).

(** Every task has performed its last action. *)
Definition all_finished (st : loop_state) : Prop :=
  Forall (fun w => todo w = [] /\ holds w = false) (workers st).

(** ** Text methods of [str] *)

(** [c.isspace()] for a character below 256: tab to carriage return, the
    four separators 28 to 31, the space, NEL and the no-break space. *)
Definition isspace (c : Ascii.ascii) : bool :=
  let n := Ascii.nat_of_ascii c in
  ((9 <=? n) && (n <=? 13) || (28 <=? n) && (n <=? 32) || (n =? 133) || (n =? 160))%nat.

(** The characters below 256 at which [splitlines] cuts: line feed, vertical
    tab, form feed, carriage return, the separators 28 to 30 and NEL. *)
Definition is_linebreak (c : Ascii.ascii) : bool :=
  let n := Ascii.nat_of_ascii c in
  ((10 <=? n) && (n <=? 13) || (28 <=? n) && (n <=? 30) || (n =? 133))%nat.

Definition SP : Ascii.ascii := Ascii.ascii_of_nat 32.
Definition LF : Ascii.ascii := Ascii.ascii_of_nat 10.
Definition CR : Ascii.ascii := Ascii.ascii_of_nat 13.

(** [s.split()]: the maximal runs of characters that are not whitespace.
    [word] is the run being read. *)
Fixpoint split_from (word s : string) : list string :=
  match s with
  | EmptyString =>
      match word with
      | EmptyString => []
      | _ => [word]
      end
  | String c rest =>
      if isspace c
      then match word with
           | EmptyString => split_from EmptyString rest
           | _ => word :: split_from EmptyString rest
           end
      else split_from (word +:+ String c EmptyString) rest
  end.

Definition str_split (s : string) : list string := split_from EmptyString s.

(** [s.lstrip()], [s.rstrip()] and [s.strip()]. *)
Fixpoint str_lstrip (s : string) : string :=
  match s with
  | EmptyString => EmptyString
  | String c rest => if isspace c then str_lstrip rest else s
  end.

Fixpoint str_rstrip (s : string) : string :=
  match s with
  | EmptyString => EmptyString
  | String c rest =>
      match str_rstrip rest with
      | EmptyString => if isspace c then EmptyString else String c EmptyString
      | kept => String c kept
      end
  end.

Definition str_strip (s : string) : string := str_rstrip (str_lstrip s).

(** [s.splitlines()]: the lines of [s] without their line breaks; a carriage
    return followed by a line feed is one break, and a break at the very end
    opens no further line.  [line] is the line being read. *)
Fixpoint splitlines_from (line s : string) : list string :=
  match s with
  | EmptyString =>
      match line with
      | EmptyString => []
      | _ => [line]
      end
  | String c rest =>
      if is_linebreak c
      then line :: match rest with
                   | String c' rest' =>
                       if Ascii.eqb c CR && Ascii.eqb c' LF
                       then splitlines_from EmptyString rest'
                       else splitlines_from EmptyString rest
                   | EmptyString => splitlines_from EmptyString rest
                   end
      else splitlines_from (line +:+ String c EmptyString) rest
  end.

Definition str_splitlines (s : string) : list string := splitlines_from EmptyString s.

(** [sep.join(parts)] *)
Fixpoint str_join (sep : string) (parts : list string) : string :=
  match parts with
  | [] => EmptyString
  | [part] => part
  | part :: rest => part +:+ sep +:+ str_join sep rest
  end.

(** The truth value of an object, as [if], [or] and [and] take it. *)
Definition truthy (v : pyval) : bool :=
  match v with
  | PNone => false
  | PBool b => b
  | PInt z => negb (z =? 0)
  | PFloat f => negb (PrimFloat.eqb f PrimFloat.zero)
  | PStr s => negb (String.eqb s EmptyString)
  | PList l => match l with [] => false | _ => true end
  | PDict d => match map_to_list d with [] => false | _ => true end
  end.

(** [a or b], with [b] already evaluated (it has no effect of its own). *)
Definition py_or (a b : pyval) : pyval := if truthy a then a else b.

(** The elements a [for] loop draws from an object: the elements of a list,
    the characters of a string, the keys of a dict (in an order that plays no
    role below); the other objects are not iterable. *)
Definition iterate (v : pyval) : result (list pyval) :=
  match v with
  | PList l => Return l
  | PStr s => Return ((fun c => PStr (String c EmptyString)) <$> String.list_ascii_of_string s)
  | PDict d => Return ((fun kv => PStr kv.1) <$> map_to_list d)
  | _ => Raise TypeError
  end.

(** ** [get_installed_software] *)

(** What the function has done so far: the commands it has run and the
    entries appended to [software_list]. *)
Record scan := {
  commands : list (list string);
  software_list : list (pyval * pyval)
}.

(** A block of statements: it changes the state and ends normally or by
    raising; what was appended before an exception stays appended. *)
Definition block (A : Type) : Type := scan -> scan * result A.

Definition block_ret {A} (a : A) : block A := fun st => (st, Return a).

Definition block_bind {A B} (c : block A) (k : A -> block B) : block B :=
  fun st =>
    match c st with
    | (st', Return a) => k a st'
    | (st', Raise e) => (st', Raise e)
    end.

(** An expression that may raise, evaluated inside a block. *)
Definition eval {A} (r : result A) : block A := fun st => (st, r).

(** [try: c except Exception: h] *)
Definition block_try (c h : block ()) : block () :=
  fun st =>
    match c st with
    | (st', Return tt) => (st', Return tt)
    | (st', Raise _) => h st'
    end.

(** [software_list.append((name, version))] *)
Definition append_entry (name version : pyval) : block () :=
  fun st => ({| commands := commands st;
                software_list := software_list st ++ [(name, version)] |}, Return tt).

(** [for x in xs: body] *)
Fixpoint for_each {A} (xs : list A) (body : A -> block ()) : block () :=
  match xs with
  | [] => block_ret tt
  | x :: rest => block_bind (body x) (fun _ => for_each rest body)
  end.

Definition wmic_command : list string := ["wmic"; "product"; "get"; "name,version"]%string.
Definition profiler_command : list string :=
  ["system_profiler"; "SPApplicationsDataType"; "-json"]%string.
Definition dpkg_command : list string :=
  ["dpkg-query"; "-W"; "-f=${Package} ${Version}" +:+ String LF EmptyString]%string.
Definition rpm_command : list string :=
  ["rpm"; "-qa"; "--queryformat"; "%{NAME} %{VERSION}" +:+ String LF EmptyString]%string.

Section Scan.

Local Notation "x <~ c ;; k" := (block_bind c (fun x => k))
  (at level 100, c at next level, right associativity).

(** [subprocess.run(command, capture_output=True, text=True).stdout], or the
    exception [subprocess.run] raises (the program is missing, the output
    cannot be decoded). *)
Variable subprocess_run : list string -> result string.

Variable json_loads : string -> result pyval.

Definition run_command (command : list string) : block string :=
  fun st => ({| commands := commands st ++ [command];
                software_list := software_list st |}, subprocess_run command).

(** The loop body of the Windows branch. *)
Definition wmic_line (line : string) : block () :=
  if negb (String.eqb (str_strip line) EmptyString)
  then let parts := str_split (str_strip line) in
       if (2 <=? length parts)%nat
       then let version := default EmptyString (last parts) in
            let name := str_join " " (removelast parts) in
            append_entry (PStr name) (PStr version)
       else block_ret tt
  else block_ret tt.

Definition windows_branch : block () :=
  stdout <~ run_command wmic_command ;;
  let lines := str_splitlines stdout in
  for_each (drop 1 lines) wmic_line.

(** The loop body of the macOS branch. *)
Definition profiler_app (app : pyval) : block () :=
  first_name <~ eval (dict_get app "_name" PNone) ;;
  second_name <~ eval (if truthy first_name then Return first_name
                       else dict_get app "name" PNone) ;;
  let name := py_or first_name second_name in
  found <~ eval (dict_get app "version" PNone) ;;
  let version := py_or found (PStr "Unknown") in
  if truthy name then append_entry name version else block_ret tt.

Definition darwin_branch : block () :=
  stdout <~ run_command profiler_command ;;
  data <~ eval (json_loads stdout) ;;
  listed <~ eval (dict_get data "SPApplicationsDataType" (PList [])) ;;
  apps <~ eval (iterate listed) ;;
  for_each apps profiler_app.

(** The loop body of both Linux queries. *)
Definition columns_line (line : string) : block () :=
  let parts := str_split line in
  if (2 <=? length parts)%nat
  then let name := default EmptyString (parts !! 0%nat) in
       let version := default EmptyString (parts !! 1%nat) in
       append_entry (PStr name) (PStr version)
  else block_ret tt.

Definition query (command : list string) : block () :=
  stdout <~ run_command command ;;
  let lines := str_splitlines stdout in
  for_each lines columns_line.

Definition linux_branch : block () :=
  block_try (query dpkg_command) (query rpm_command).

(** [system] is what [platform.system()] returns. *)
Definition get_installed_software (system : string) : scan :=
  let body :=
    if String.eqb system "Windows" then windows_branch
    else if String.eqb system "Darwin" then darwin_branch
    else if String.eqb system "Linux" then linux_branch
    else block_ret tt in
  (block_try body (block_ret tt) {| commands := []; software_list := [] |}).1.

End Scan.

(** ** Vocabulary for the software list *)

Fixpoint all_chars (P : Ascii.ascii -> bool) (s : string) : bool :=
  match s with
  | EmptyString => true
  | String c rest => P c && all_chars P rest
  end.

(** A word as the package queries print it: not empty, no whitespace. *)
Definition is_token (t : string) : Prop :=
  t <> EmptyString /\ all_chars (fun c => negb (isspace c)) t = true.

Definition no_linebreak (s : string) : Prop :=
  all_chars (fun c => negb (is_linebreak c)) s = true.

Definition spaces (n : nat) : string :=
  foldr (fun _ s => String SP s) EmptyString (seq 0 n).

(** What a line of a Linux query contributes. *)
Definition columns_entry (line : string) : option (pyval * pyval) :=
  match str_split line with
  | name :: version :: _ => Some (PStr name, PStr version)
  | _ => None
  end.

(** What a line of the Windows listing contributes. *)
Definition wmic_entry (line : string) : option (pyval * pyval) :=
  let parts := str_split line in
  if (2 <=? length parts)%nat
  then Some (PStr (str_join " " (removelast parts)), PStr (default EmptyString (last parts)))
  else None.

(** What a record of the macOS listing contributes. *)
Definition profiler_entry (app : gmap string pyval) : option (pyval * pyval) :=
  let name := py_or (default PNone (app !! "_name"%string))
                    (default PNone (app !! "name"%string)) in
  if truthy name
  then Some (name, py_or (default PNone (app !! "version"%string)) (PStr "Unknown"))
  else None.

(** The output of [dpkg-query] and of [rpm] with the formats of the source:
    one line [name version] per package. *)
Definition listing (packages : list (string * string)) : string :=
  foldr (fun p rest => p.1 +:+ String SP (p.2 +:+ String LF rest)) EmptyString packages.

(** A row of the [wmic] table: the words of the name, the version, and the
    widths of the padding after either column. *)
Record wmic_row := {
  name_words : list string;
  row_version : string;
  gap : nat;
  trailing : nat
}.

Definition wmic_line_of (row : wmic_row) : string :=
  str_join " " (name_words row) +:+ spaces (S (gap row)) +:+ row_version row
    +:+ spaces (trailing row).

Definition wmic_table (header : string) (rows : list wmic_row) : string :=
  header +:+ String LF
    (foldr (fun row rest => wmic_line_of row +:+ String LF rest) EmptyString rows).

(** A row the table can hold: a name of at least one word, words and version
    free of whitespace. *)
Definition row_ok (row : wmic_row) : Prop :=
  name_words row <> [] /\ Forall is_token (name_words row) /\ is_token (row_version row).

(** An entry whose name and version both count as true. *)
Definition entry_ok (entry : pyval * pyval) : Prop :=
  truthy entry.1 = true /\ truthy entry.2 = true.

(** ** The table of the window *)

(** [s.lower()] on characters below 256: the letters A to Z and the accented
    capitals 192 to 222 (not the multiplication sign 215) move up by 32. *)
Definition lower_char (c : Ascii.ascii) : Ascii.ascii :=
  let n := Ascii.nat_of_ascii c in
  if ((65 <=? n) && (n <=? 90) || (192 <=? n) && (n <=? 222) && negb (n =? 215))%nat
  then Ascii.ascii_of_nat (n + 32)
  else c.

Fixpoint str_lower (s : string) : string :=
  match s with
  | EmptyString => EmptyString
  | String c rest => String (lower_char c) (str_lower rest)
  end.

(** The code points of [c.upper()] for a character below 256: the letters a
    to z and the accented small letters 224 to 254 (not the division sign
    247) move down by 32, the micro sign becomes the Greek capital mu, the
    sharp s becomes SS and y with diaeresis leaves the range. *)
Definition upper_codes (c : Ascii.ascii) : list nat :=
  let n := Ascii.nat_of_ascii c in
  if ((97 <=? n) && (n <=? 122))%nat then [(n - 32)%nat]
  else if (n =? 181)%nat then [924%nat]
  else if (n =? 223)%nat then [83%nat; 83%nat]
  else if ((224 <=? n) && (n <=? 254) && negb (n =? 247))%nat then [(n - 32)%nat]
  else if (n =? 255)%nat then [376%nat]
  else [n].

Definition str_upper (s : string) : list nat :=
  flat_map upper_codes (String.list_ascii_of_string s).

Definition codes (s : string) : list nat :=
  Ascii.nat_of_ascii <$> String.list_ascii_of_string s.

(** [p in s] for two strings. *)
Fixpoint contains (p s : string) : bool :=
  String.prefix p s
  || match s with
     | EmptyString => false
     | String _ rest => contains p rest
     end.

(** [Qt.GlobalColor.red], [green] and [yellow]. *)
Inductive colour := red | green | yellow.

(** A [QTableWidgetItem]: its text and the background set on it, if any. *)
Record item := {
  text : string;
  background : option colour
}.

(** A row of the table with its four columns (Software, Installed Version,
    Status, Root Cause Analysis) and whether the row is hidden. *)
Record table_row := {
  column0 : item;
  column1 : item;
  column2 : item;
  column3 : item;
  row_hidden : bool
}.

Definition colour_of (safety : string) : colour :=
  if bool_decide (str_upper safety = codes "HARMFUL") then red
  else if bool_decide (str_upper safety = codes "SAFE") then green
  else yellow.

(** [update_table_row]: the slot of [update_row].  On a table without rows
    the clamped index is -1, [setItem] does nothing and [item] returns
    [None], whose [setBackground] raises. *)
Definition update_table_row (table : list table_row) (row : nat) (safety rca : string)
  : result (list table_row) :=
  match table with
  | [] => Raise AttributeError
  | _ =>
      let row := Nat.min row (length table - 1) in
      let color := colour_of safety in
      Return (alter (fun r => {| column0 := column0 r;
                                 column1 := column1 r;
                                 column2 := {| text := safety; background := Some color |};
                                 column3 := {| text := rca; background := Some color |};
                                 row_hidden := row_hidden r |}) row table)
  end.

(** The body of the loop of [filter_table] for one row. *)
Definition filter_row (wanted : string) (r : table_row) : table_row :=
  {| column0 := column0 r; column1 := column1 r; column2 := column2 r;
     column3 := column3 r;
     row_hidden := negb (contains wanted (str_lower (text (column0 r)))) |}.

(** [filter_table]: [search] is the text of the search field. *)
Definition filter_table (search : string) (table : list table_row) : list table_row :=
  let wanted := str_lower search in
  foldl (fun t row => alter (filter_row wanted) row t) table (seq 0 (length table)).

(** * Properties *)

(** ** The retry loop *)

Section RetryLoop.

Variables (s : session) (r : request) (delay : Z).

Lemma safe_post_attempt_retryable attempt :
  retryable (s r attempt) = true ->
  safe_post_attempt s r delay attempt
  = ([Post r; Sleep (delay * (Z.of_nat attempt + 1))], Next).
Proof.
  unfold safe_post_attempt, safe_post_try, retryable.
  destruct (s r attempt) as [e | status [body | e]]; simpl; try done.
  - intros ->. done.
  - destruct (status =? 429); done.
Qed.

Lemma safe_post_attempt_terminal attempt status body :
  s r attempt = Status status (Return body) ->
  status <> 429 ->
  safe_post_attempt s r delay attempt = ([Post r], Done (Some status, body)).
Proof.
  intros Hreply Hstatus. unfold safe_post_attempt, safe_post_try.
  rewrite Hreply. apply Z.eqb_neq in Hstatus. by rewrite Hstatus.
Qed.

(** A run of retryable replies is worked off attempt by attempt. *)
Lemma safe_post_loop_retryable count : forall first rest,
  (forall k, (first <= k < first + count)%nat -> retryable (s r k) = true) ->
  safe_post_loop s r delay (seq first count ++ rest)
  = (backoff r delay first count ++ (safe_post_loop s r delay rest).1,
     (safe_post_loop s r delay rest).2).
Proof.
  induction count as [| count IH]; intros first rest Hretry.
  - simpl. by destruct (safe_post_loop s r delay rest).
  - cbn [seq app safe_post_loop].
    rewrite safe_post_attempt_retryable by (apply Hretry; lia).
    rewrite IH by (intros k Hk; apply Hretry; lia).
    done.
Qed.

Lemma safe_post_loop_exhausted retries :
  (forall k, (k < retries)%nat -> retryable (s r k) = true) ->
  safe_post_loop s r delay (seq 0 retries)
  = (backoff r delay 0 retries, (None, "Max retries exceeded"%string)).
Proof.
  intros Hretry.
  rewrite <- (app_nil_r (seq 0 retries)).
  rewrite safe_post_loop_retryable by (intros k Hk; apply Hretry; lia).
  simpl. by rewrite app_nil_r.
Qed.

Lemma safe_post_loop_terminal retries k status body :
  (k < retries)%nat ->
  (forall j, (j < k)%nat -> retryable (s r j) = true) ->
  s r k = Status status (Return body) ->
  status <> 429 ->
  safe_post_loop s r delay (seq 0 retries)
  = (backoff r delay 0 k ++ [Post r], (Some status, body)).
Proof.
  intros Hk Hretry Hreply Hstatus.
  replace retries with (k + S (retries - S k))%nat by lia.
  rewrite seq_app.
  rewrite safe_post_loop_retryable by (intros j Hj; apply Hretry; lia).
  cbn [seq safe_post_loop plus].
  by rewrite (safe_post_attempt_terminal _ _ _ Hreply Hstatus).
Qed.

Lemma safe_post_attempt_io attempt :
  forallb is_io (safe_post_attempt s r delay attempt).1 = true.
Proof.
  unfold safe_post_attempt, safe_post_try.
  destruct (s r attempt) as [e | status [body | e]]; simpl; try done;
    destruct (status =? 429); done.
Qed.

Lemma safe_post_loop_io attempts :
  forallb is_io (safe_post_loop s r delay attempts).1 = true.
Proof.
  induction attempts as [| attempt rest IH]; [done |].
  cbn [safe_post_loop].
  pose proof (safe_post_attempt_io attempt) as Hio.
  destruct (safe_post_attempt s r delay attempt) as [log [| v]]; simpl in *.
  - destruct (safe_post_loop s r delay rest) as [log' v]; simpl in *.
    rewrite forallb_app. by rewrite Hio, IH.
  - done.
Qed.

End RetryLoop.

Lemma backoff_S r delay first count :
  backoff r delay first (S count)
  = Post r :: Sleep (delay * (Z.of_nat first + 1)) :: backoff r delay (S first) count.
Proof. done. Qed.

Lemma sleeps_of_backoff r delay count : forall first,
  sleeps_of (backoff r delay first count)
  = (fun attempt => delay * (Z.of_nat attempt + 1)) <$> seq first count.
Proof.
  induction count as [| count IH]; intros first; [done |].
  rewrite backoff_S. cbn. by rewrite <- IH.
Qed.

Lemma posts_of_backoff r delay count : forall first,
  posts_of (backoff r delay first count) = replicate count r.
Proof.
  induction count as [| count IH]; intros first; [done |].
  rewrite backoff_S. cbn. f_equal. apply IH.
Qed.

Lemma posts_of_app log log' : posts_of (log ++ log') = posts_of log ++ posts_of log'.
Proof. apply omap_app. Qed.

Lemma safe_post_unfold s json_payload headers retries delay :
  safe_post s json_payload headers retries delay
  = safe_post_loop s {| url := PERPLEXITY_CHAT_URL; json_payload := json_payload;
                        headers := headers; timeout := 20 |} delay (seq 0 retries).
Proof. done. Qed.

(** C10: when the attempts up to the k-th (counted from 1) of a call of
    [safe_post] all fail in a retryable way (status 429 or an exception),
    each of them is followed by a sleep of [delay] times its number, the last
    allowed attempt included: an exhausted call has performed exactly
    [retries] sleeps, the last of them followed by no further POST, and then
    returns the sentinel [(None, "Max retries exceeded")]. *)
Theorem backoff_follows_every_retryable_failure
    (s : session) (json_payload : pyval) (headers : gmap string string)
    (retries : nat) (delay : Z) (k : nat) :
  let r := {| url := PERPLEXITY_CHAT_URL; json_payload := json_payload;
              headers := headers; timeout := 20 |} in
  let call := safe_post s json_payload headers retries delay in
  (k < retries)%nat ->
  (forall j, (j <= k)%nat -> retryable (s r j) = true) ->
  exists rest,
    call.1 = backoff r delay 0 (S k) ++ rest /\
    (S k = retries ->
       rest = [] /\
       call.2 = (None, "Max retries exceeded"%string) /\
       sleeps_of call.1 = (fun j => delay * (Z.of_nat j + 1)) <$> seq 0 retries /\
       posts_of call.1 = replicate retries r).
Proof.
  intros r call Hk Hretry. subst call. rewrite safe_post_unfold. fold r.
  assert (seq 0 retries = seq 0 (S k) ++ seq (S k) (retries - S k)) as ->.
  { replace retries with (S k + (retries - S k))%nat at 1 by lia. apply seq_app. }
  rewrite safe_post_loop_retryable by (intros j Hj; apply Hretry; lia).
  eexists. split; [done |].
  intros <-. replace (S k - S k)%nat with 0%nat by lia.
  change (seq (S k) 0) with (@nil nat). cbn [safe_post_loop fst snd].
  rewrite !app_nil_r, sleeps_of_backoff, posts_of_backoff. done.
Qed.

Lemma backoff_follows_every_retryable_failure_witness :
  let call := safe_post (scripted [Status 429 (Return "slow down"%string)]) PNone ∅ 3 5 in
  sleeps_of call.1 = [5; 10; 15] /\ call.2 = (None, "Max retries exceeded"%string).
Proof.
  intros call.
  destruct (backoff_follows_every_retryable_failure
              (scripted [Status 429 (Return "slow down"%string)]) PNone ∅ 3 5 2)
    as [rest [_ Hlast]].
  - lia.
  - intros [| [| [| j]]] Hj; [reflexivity | reflexivity | reflexivity | lia].
  - destruct (Hlast eq_refl) as (_ & Hsentinel & Hsleeps & _).
    split; [exact Hsleeps | exact Hsentinel].
Defined.

(** ** The classification of one entry *)

Section ClassificationFacts.

Variable json_loads : string -> result pyval.

Lemma check_software_risk_async_unfold s name key :
  let call := safe_post_loop s (request_for name key) RETRY_DELAY (seq 0 MAX_RETRIES) in
  check_software_risk_async json_loads s name key
  = (Acquire :: call.1 ++ [Release],
     if bool_decide (call.2.1 ≠ Some 200)
     then Return (name, UNKNOWN, PStr "Error fetching data")
     else Return (name, (parse_response json_loads call.2.2).1,
                        (parse_response json_loads call.2.2).2)).
Proof.
  intros call. unfold check_software_risk_async. rewrite safe_post_unfold.
  change {| url := PERPLEXITY_CHAT_URL; json_payload := payload_for name;
            headers := headers_for key; timeout := 20 |} with (request_for name key).
  fold call. destruct call as [log [status text]]. cbn [fst snd app].
  by destruct (parse_response json_loads text).
Qed.

Lemma check_software_risk_async_exhausted s name key :
  (forall k, (k < MAX_RETRIES)%nat -> retryable (s (request_for name key) k) = true) ->
  check_software_risk_async json_loads s name key
  = (Acquire :: backoff (request_for name key) RETRY_DELAY 0 MAX_RETRIES ++ [Release],
     Return (name, UNKNOWN, PStr "Error fetching data")).
Proof.
  intros Hretry. rewrite check_software_risk_async_unfold.
  by rewrite safe_post_loop_exhausted.
Qed.

Lemma check_software_risk_async_terminal s name key k status body :
  (k < MAX_RETRIES)%nat ->
  (forall j, (j < k)%nat -> retryable (s (request_for name key) j) = true) ->
  s (request_for name key) k = Status status (Return body) ->
  status <> 429 ->
  check_software_risk_async json_loads s name key
  = (Acquire :: backoff (request_for name key) RETRY_DELAY 0 k
             ++ [Post (request_for name key); Release],
     if bool_decide (status = 200)
     then Return (name, (parse_response json_loads body).1,
                        (parse_response json_loads body).2)
     else Return (name, UNKNOWN, PStr "Error fetching data")).
Proof.
  intros Hk Hretry Hreply Hstatus. rewrite check_software_risk_async_unfold.
  rewrite (safe_post_loop_terminal _ _ _ _ _ _ _ Hk Hretry Hreply Hstatus).
  cbn [fst snd]. rewrite <- app_assoc. f_equal.
  repeat case_bool_decide; congruence.
Qed.

Lemma check_software_risk_async_returns s name key :
  exists safety rca,
    (check_software_risk_async json_loads s name key).2 = Return (name, safety, rca).
Proof.
  rewrite check_software_risk_async_unfold. cbn [snd].
  case_bool_decide; eauto.
Qed.

End ClassificationFacts.

(** C8: whatever the entry's name, the credential and the behaviour of the
    remote service (statuses, bodies, exceptions) and of [json.loads], the
    classification of an entry raises nothing: it returns a tuple made of the
    entry's name, a safety value and an rca value. *)
Theorem check_software_risk_async_never_raises
    (json_loads : string -> result pyval) (s : session) (software_name api_key : string) :
  exists safety rca,
    (check_software_risk_async json_loads s software_name api_key).2
    = Return (software_name, safety, rca).
Proof. apply check_software_risk_async_returns. Qed.

(** C2, as the code has it: when each of the [MAX_RETRIES] attempts of an
    entry fails in a retryable way, [safe_post] makes exactly [MAX_RETRIES]
    POSTs, none after the last failure, and returns the sentinel
    [(None, "Max retries exceeded")]; its caller sees a status that is not
    200, so the classification of the entry is
    [(UNKNOWN, "Error fetching data")]. *)
Theorem exhausted_retries_classification
    (json_loads : string -> result pyval) (s : session) (software_name api_key : string) :
  let r := request_for software_name api_key in
  let call := safe_post s (payload_for software_name) (headers_for api_key)
                MAX_RETRIES RETRY_DELAY in
  let classified := check_software_risk_async json_loads s software_name api_key in
  (forall k, (k < MAX_RETRIES)%nat -> retryable (s r k) = true) ->
  call = (backoff r RETRY_DELAY 0 MAX_RETRIES, (None, "Max retries exceeded"%string)) /\
  posts_of call.1 = replicate MAX_RETRIES r /\
  posts_of classified.1 = replicate MAX_RETRIES r /\
  classified.2 = Return (software_name, UNKNOWN, PStr "Error fetching data").
Proof.
  intros r call classified Hretry. subst call classified.
  rewrite check_software_risk_async_exhausted by done.
  rewrite safe_post_unfold.
  change {| url := PERPLEXITY_CHAT_URL; json_payload := payload_for software_name;
            headers := headers_for api_key; timeout := 20 |} with r.
  rewrite safe_post_loop_exhausted by done.
  cbn [fst snd]. split; [done |]. split; [apply posts_of_backoff |]. split; [| done].
  change (Acquire :: ?l) with ([Acquire] ++ l).
  rewrite !posts_of_app, posts_of_backoff. apply app_nil_r.
Qed.

Lemma exhausted_retries_classification_witness :
  (check_software_risk_async Sample.json_loads (scripted []) "vim" "key").2
  = Return ("vim"%string, UNKNOWN, PStr "Error fetching data").
Proof.
  apply (exhausted_retries_classification Sample.json_loads (scripted []) "vim" "key").
  intros k Hk. reflexivity.
Defined.

(** C2 as worded fails: after [MAX_RETRIES] transport failures in a row the
    rca of the entry is not the sentinel text of [safe_post]. *)
Lemma exhausted_retries_not_reported_as_such :
  (forall k, (k < MAX_RETRIES)%nat ->
     retryable (scripted [] (request_for "vim" "key") k) = true) /\
  (check_software_risk_async Sample.json_loads (scripted []) "vim" "key").2
  <> Return ("vim"%string, UNKNOWN, PStr "Max retries exceeded").
Proof.
  split; [done |].
  rewrite check_software_risk_async_exhausted by done.
  cbn [snd]. intros Heq. discriminate Heq.
Qed.

(** C4, as the code has it: when an attempt (reached through retryable
    failures only) obtains a status other than 429 and the body of that
    response is read without an exception, the call returns right after that
    POST, with no sleep and no further attempt, and a status other than 200
    is classified [(UNKNOWN, "Error fetching data")].  With [k = 0] and
    status 500 this is one single attempt. *)
Theorem other_status_ends_the_call
    (json_loads : string -> result pyval) (s : session) (software_name api_key : string)
    (k : nat) (status : Z) (body : string) :
  let r := request_for software_name api_key in
  let classified := check_software_risk_async json_loads s software_name api_key in
  (k < MAX_RETRIES)%nat ->
  (forall j, (j < k)%nat -> retryable (s r j) = true) ->
  s r k = Status status (Return body) ->
  status <> 429 ->
  classified.1 = Acquire :: backoff r RETRY_DELAY 0 k ++ [Post r; Release] /\
  posts_of classified.1 = replicate (S k) r /\
  (status <> 200 ->
   classified.2 = Return (software_name, UNKNOWN, PStr "Error fetching data")).
Proof.
  intros r classified Hk Hretry Hreply Hstatus. subst classified.
  rewrite (check_software_risk_async_terminal _ _ _ _ _ _ _ Hk Hretry Hreply Hstatus).
  cbn [fst snd]. split; [done |]. split.
  - change (Acquire :: ?l) with ([Acquire] ++ l).
    rewrite !posts_of_app, posts_of_backoff. cbn.
    change (r :: replicate k r) with (replicate (S k) r).
    by rewrite replicate_S_end.
  - intros Hne. by rewrite bool_decide_eq_false_2.
Qed.

Lemma other_status_ends_the_call_witness :
  let s := scripted [Status 500 (Return "Internal Server Error"%string)] in
  let classified := check_software_risk_async Sample.json_loads s "vim" "key" in
  classified.1 = [Acquire; Post (request_for "vim" "key"); Release] /\
  classified.2 = Return ("vim"%string, UNKNOWN, PStr "Error fetching data").
Proof.
  intros s classified.
  destruct (other_status_ends_the_call Sample.json_loads s "vim" "key" 0 500
              "Internal Server Error") as (Hlog & _ & Hverdict).
  - unfold MAX_RETRIES. lia.
  - intros j Hj. lia.
  - reflexivity.
  - lia.
  - split; [exact Hlog | apply Hverdict; lia].
Defined.

(** C4 as worded fails: a status 500 is obtained on the first attempt, the
    read of its body raises, and the call sleeps and makes a second attempt,
    whose verdict is the one returned. *)
Lemma status_500_retried_when_body_read_fails :
  let verdict := Sample.envelope_text (Sample.verdict_text "SAFE" "none") in
  let s := scripted [Status 500 (Raise ClientError); Status 200 (Return verdict)] in
  let classified := check_software_risk_async Sample.json_loads s "vim" "key" in
  s (request_for "vim" "key") 0%nat = Status 500 (Raise ClientError) /\
  classified.1 = [Acquire; Post (request_for "vim" "key"); Sleep 5;
                  Post (request_for "vim" "key"); Release] /\
  classified.2 = Return ("vim"%string, PStr "SAFE", PStr "none") /\
  classified.2 <> Return ("vim"%string, UNKNOWN, PStr "Error fetching data").
Proof.
  intros verdict s classified. split; [reflexivity |].
  assert (classified = ([Acquire; Post (request_for "vim" "key"); Sleep 5;
                         Post (request_for "vim" "key"); Release],
                        Return ("vim"%string, PStr "SAFE", PStr "none"))) as ->.
  { subst classified.
    rewrite (check_software_risk_async_terminal Sample.json_loads s "vim" "key" 1 200 verdict);
      [| unfold MAX_RETRIES; lia
       | intros [| j] Hj; [reflexivity | lia]
       | reflexivity
       | lia ].
    vm_compute. reflexivity. }
  cbn [fst snd]. split; [done |]. split; [done |]. intros Heq. discriminate Heq.
Qed.

(** ** The response parser *)

Section Parser.

Variable json_loads : string -> result pyval.

(** The chain of subscripts succeeds exactly on the envelopes of the
    specification. *)
Lemma message_content_has_content data content :
  message_content data = Return content <-> has_content data content.
Proof.
  unfold message_content, has_content, mbind, result_bind, getitem_key, getitem_index.
  split.
  - destruct data as [| | | | | | d]; try discriminate.
    destruct (d !! "choices"%string) as [[| | | | s | [| first others] | dc] |] eqn:Hchoices;
      try discriminate.
    + destruct (String.get 0 s); discriminate.
    + cbn. destruct first as [| | | | | | m]; try discriminate.
      destruct (m !! "message"%string) as [[| | | | | | c] |] eqn:Hmessage;
        try discriminate.
      destruct (c !! "content"%string) as [x |] eqn:Hcontent; try discriminate.
      intros [= <-]. by exists d, (PDict m), others, m, c.
  - intros (d & first & others & m & c & -> & Hchoices & -> & Hmessage & Hcontent).
    rewrite Hchoices. cbn. by rewrite Hmessage, Hcontent.
Qed.

Lemma message_content_missing data :
  (forall content, ~ has_content data content) ->
  exists e, message_content data = Raise e.
Proof.
  intros Hmissing. destruct (message_content data) as [content | e] eqn:Hchain; [| eauto].
  apply message_content_has_content in Hchain. by destruct (Hmissing content).
Qed.

Lemma parse_response_outer text_response data :
  json_loads text_response = Return data ->
  parse_response json_loads text_response
  = try_except (text ← message_content data;
                result ← loads json_loads text;
                safety ← dict_get result "safety" UNKNOWN;
                rca ← dict_get result "rca" (PStr EmptyString);
                mret (safety, rca)) could_not_parse.
Proof. intros Houter. unfold parse_response, parse_try. by rewrite Houter. Qed.

Lemma parse_response_inner text_response data content :
  json_loads text_response = Return data ->
  has_content data content ->
  parse_response json_loads text_response
  = try_except (result ← loads json_loads content;
                safety ← dict_get result "safety" UNKNOWN;
                rca ← dict_get result "rca" (PStr EmptyString);
                mret (safety, rca)) could_not_parse.
Proof.
  intros Houter Hcontent. rewrite (parse_response_outer _ _ Houter).
  apply message_content_has_content in Hcontent. by rewrite Hcontent.
Qed.

End Parser.

(** C5: for the replies 429, 429, 200 the call makes exactly three POSTs,
    sleeps [RETRY_DELAY * 1] after the first and [RETRY_DELAY * 2] after the
    second, and the classification is the one parsed from the body of the
    200 response: when that body is a chat-completion envelope whose content
    parses to an object, the safety and the rca returned are the values the
    object holds under [safety] and [rca] ([UNKNOWN] and the empty string
    for an absent key); when the body is not JSON, the classification is
    [(UNKNOWN, "Could not parse response")]. *)
Theorem two_rate_limits_then_success
    (json_loads : string -> result pyval) (software_name api_key : string)
    (text1 text2 : result string) (body : string) :
  let r := request_for software_name api_key in
  let s := scripted [Status 429 text1; Status 429 text2; Status 200 (Return body)] in
  let classified := check_software_risk_async json_loads s software_name api_key in
  classified
  = ([Acquire; Post r; Sleep (RETRY_DELAY * 1); Post r; Sleep (RETRY_DELAY * 2); Post r;
      Release],
     Return (software_name, (parse_response json_loads body).1,
                            (parse_response json_loads body).2)) /\
  (forall data inner d,
     json_loads body = Return data ->
     has_content data (PStr inner) ->
     json_loads inner = Return (PDict d) ->
     classified.2 = Return (software_name,
                            default UNKNOWN (d !! "safety"%string),
                            default (PStr EmptyString) (d !! "rca"%string))) /\
  (forall e,
     json_loads body = Raise e ->
     classified.2 = Return (software_name, UNKNOWN, PStr "Could not parse response")).
Proof.
  intros r s classified.
  assert (classified
          = ([Acquire; Post r; Sleep (RETRY_DELAY * 1); Post r; Sleep (RETRY_DELAY * 2);
              Post r; Release],
             Return (software_name, (parse_response json_loads body).1,
                                    (parse_response json_loads body).2))) as ->.
  { subst classified.
    rewrite (check_software_risk_async_terminal json_loads s software_name api_key 2 200
               body).
    - done.
    - unfold MAX_RETRIES. lia.
    - intros [| [| j]] Hj; [by destruct text1 | by destruct text2 | lia].
    - reflexivity.
    - lia. }
  split; [done |]. cbn [snd]. split.
  - intros data inner d Houter Hcontent Hinner.
    rewrite (parse_response_inner _ _ _ _ Houter Hcontent). cbn. by rewrite Hinner.
  - intros e Houter. unfold parse_response, parse_try. by rewrite Houter.
Qed.

Lemma two_rate_limits_then_success_witness :
  let body := Sample.envelope_text (Sample.verdict_text "HARMFUL" "bundles adware") in
  let s := scripted [Status 429 (Return "slow down"%string); Status 429 (Raise TimeoutError);
                     Status 200 (Return body)] in
  (check_software_risk_async Sample.json_loads s "git" "key").2
  = Return ("git"%string, PStr "HARMFUL", PStr "bundles adware").
Proof.
  intros body s.
  destruct (two_rate_limits_then_success Sample.json_loads "git" "key"
              (Return "slow down"%string) (Raise TimeoutError) body) as (_ & Hverdict & _).
  subst s. rewrite (Hverdict (Sample.envelope (PStr (Sample.verdict_text "HARMFUL" "bundles adware")))
             (Sample.verdict_text "HARMFUL" "bundles adware")
             (<["safety"%string := PStr "HARMFUL"]>
                {[ "rca"%string := PStr "bundles adware" ]})).
  - vm_compute. reflexivity.
  - vm_compute. reflexivity.
  - unfold has_content, Sample.envelope.
    eexists _, _, _, _, _. split; [reflexivity |].
    split; [vm_compute; reflexivity |]. split; [reflexivity |].
    split; vm_compute; reflexivity.
  - vm_compute. reflexivity.
Defined.

(** C3, as the code has it: the parser returns
    [(UNKNOWN, "Could not parse response")] when the outer parse raises, when
    the envelope keys are absent (no [choices] list with a first element
    holding [message] holding [content]), when the content is not a string
    or its parse raises, and when the content parses to something that is
    not an object.  When it parses to an object, a [safety] value that is
    present is passed through unchanged, whatever it is; an absent [safety]
    becomes [UNKNOWN] and an absent [rca] the empty string, without the
    fallback text.  Being a function into pairs, the parser raises nothing. *)
Theorem parse_response_contract (json_loads : string -> result pyval) (text_response : string) :
  let parsed := parse_response json_loads text_response in
  (forall e, json_loads text_response = Raise e -> parsed = could_not_parse) /\
  (forall data,
     json_loads text_response = Return data ->
     (forall content, ~ has_content data content) ->
     parsed = could_not_parse) /\
  (forall data content,
     json_loads text_response = Return data ->
     has_content data content ->
     (forall inner, content = PStr inner -> exists e, json_loads inner = Raise e) ->
     parsed = could_not_parse) /\
  (forall data inner v,
     json_loads text_response = Return data ->
     has_content data (PStr inner) ->
     json_loads inner = Return v ->
     (forall d, v <> PDict d) ->
     parsed = could_not_parse) /\
  (forall data inner d,
     json_loads text_response = Return data ->
     has_content data (PStr inner) ->
     json_loads inner = Return (PDict d) ->
     parsed = (default UNKNOWN (d !! "safety"%string),
               default (PStr EmptyString) (d !! "rca"%string)) /\
     (forall safety, d !! "safety"%string = Some safety -> parsed.1 = safety)).
Proof.
  intros parsed. subst parsed. split; [| split; [| split; [| split]]].
  - intros e Houter. unfold parse_response, parse_try. by rewrite Houter.
  - intros data Houter Hmissing. rewrite (parse_response_outer _ _ _ Houter).
    by destruct (message_content_missing _ Hmissing) as [e ->].
  - intros data content Houter Hcontent Hinner.
    rewrite (parse_response_inner _ _ _ _ Houter Hcontent).
    destruct content as [| | | | inner | |]; try done.
    cbn. by destruct (Hinner inner eq_refl) as [e ->].
  - intros data inner v Houter Hcontent Hinner Hobject.
    rewrite (parse_response_inner _ _ _ _ Houter Hcontent).
    cbn. rewrite Hinner. cbn.
    destruct v as [| | | | | | d]; try done. by destruct (Hobject d).
  - intros data inner d Houter Hcontent Hinner.
    rewrite (parse_response_inner _ _ _ _ Houter Hcontent).
    cbn. rewrite Hinner. cbn. split; [done |].
    intros safety Hsafety. by rewrite Hsafety.
Qed.

Lemma parse_response_contract_witness :
  (parse_response Sample.json_loads
     (Sample.envelope_text (Sample.verdict_text "SUSPICIOUS" "unsigned"))).1
  = PStr "SUSPICIOUS".
Proof.
  destruct (parse_response_contract Sample.json_loads
              (Sample.envelope_text (Sample.verdict_text "SUSPICIOUS" "unsigned")))
    as (_ & _ & _ & _ & Hobject).
  destruct (Hobject (Sample.envelope (PStr (Sample.verdict_text "SUSPICIOUS" "unsigned")))
              (Sample.verdict_text "SUSPICIOUS" "unsigned")
              (<["safety"%string := PStr "SUSPICIOUS"]> {[ "rca"%string := PStr "unsigned" ]}))
    as [_ Hpass].
  - vm_compute. reflexivity.
  - unfold has_content, Sample.envelope.
    eexists _, _, _, _, _. split; [reflexivity |].
    split; [vm_compute; reflexivity |]. split; [reflexivity |].
    split; vm_compute; reflexivity.
  - vm_compute. reflexivity.
  - apply Hpass. vm_compute. reflexivity.
Defined.

(** Content that is not JSON gives the fallback verdict. *)
Example malformed_content_falls_back :
  parse_response Sample.json_loads (Sample.envelope_text "no verdict") = could_not_parse.
Proof. vm_compute. reflexivity. Qed.

(** C3 as worded fails: the content parses to the empty object, so the
    expected keys [safety] and [rca] are absent, and the rca returned is the
    empty string instead of the fallback text. *)
Lemma absent_verdict_keys_are_not_a_parse_failure :
  let body := Sample.envelope_text "{}" in
  Sample.json_loads body = Return (Sample.envelope (PStr "{}")) /\
  Sample.json_loads "{}" = Return (PDict ∅) /\
  parse_response Sample.json_loads body = (UNKNOWN, PStr EmptyString) /\
  parse_response Sample.json_loads body <> could_not_parse.
Proof.
  intros body.
  assert (parse_response Sample.json_loads body = (UNKNOWN, PStr EmptyString)) as Hparsed
    by (vm_compute; reflexivity).
  split; [vm_compute; reflexivity |]. split; [vm_compute; reflexivity |].
  split; [exact Hparsed |]. rewrite Hparsed. intros Heq. discriminate Heq.
Qed.

(** ** The worker loop *)

(** While no awaited task raises and every verdict is one [emit] takes, the
    loop emits one [update_row] and one [progress] per task, numbered by
    position in the completion order. *)
Lemma emit_loop_returned total completed : forall i,
  Forall returned completed ->
  forallb verdict_emittable completed = true ->
  (emit_loop total i completed).2 = Return () /\
  rows_of (emit_loop total i completed).1 = seq i (length completed) /\
  percents_of (emit_loop total i completed).1
  = (fun j => progress_percent j total) <$> seq i (length completed).
Proof.
  induction completed as [| outcome rest IH]; intros i Hall Hemit; [done |].
  apply Forall_cons in Hall as [(name & safety & rca & ->) Hrest].
  cbn [forallb verdict_emittable] in Hemit. apply andb_true_iff in Hemit as [Hhead Hemit].
  specialize (IH (S i) Hrest Hemit) as (Hend & Hrows & Hpercents).
  cbn [emit_loop]. rewrite Hhead. destruct (emit_loop total (S i) rest) as [signals r].
  cbn in *. by rewrite Hend, Hrows, Hpercents.
Qed.

Lemma as_completed_length {A} (tasks : list A) order :
  Forall (fun k => (k < length tasks)%nat) order ->
  length (as_completed tasks order) = length order.
Proof.
  unfold as_completed. induction 1 as [| k order Hk _ IH]; [done |].
  cbn. destruct (lookup_lt_is_Some_2 tasks k Hk) as [t ->]. cbn. by rewrite IH.
Qed.

Lemma as_completed_elem_of {A} (tasks : list A) order t :
  t ∈ as_completed tasks order -> t ∈ tasks.
Proof.
  unfold as_completed. intros (k & _ & Hk)%list_elem_of_omap.
  by eapply list_elem_of_lookup_2.
Qed.

Lemma order_in_range order n :
  order ≡ₚ seq 0 n -> Forall (fun k => (k < n)%nat) order.
Proof.
  intros Hperm. apply Forall_forall. intros k Hk.
  rewrite Hperm in Hk. apply elem_of_seq in Hk. lia.
Qed.

Lemma as_completed_forallb {A} (f : A -> bool) (tasks : list A) order :
  forallb f tasks = true -> forallb f (as_completed tasks order) = true.
Proof.
  intros Hall. apply forallb_forall. intros t Ht.
  apply list_elem_of_In, as_completed_elem_of, list_elem_of_In in Ht.
  by apply (proj1 (forallb_forall f tasks) Hall).
Qed.

Lemma forallb_fmap {A B} (f : B -> bool) (g : A -> B) (l : list A) :
  forallb f (g <$> l) = forallb (fun x => f (g x)) l.
Proof. induction l as [| x l IH]; [done |]. cbn. by rewrite <- IH. Qed.

Section WorkerFacts.

Variable json_loads : string -> result pyval.

Lemma tasks_of_returned software_list api_key service t :
  t ∈ tasks_of json_loads software_list api_key service -> returned t.2.
Proof.
  unfold tasks_of. intros (k & Hk)%list_elem_of_lookup_1.
  rewrite list_lookup_imap in Hk.
  destruct (software_list !! k) as [entry |]; [| done].
  injection Hk as <-.
  destruct (check_software_risk_async_returns json_loads (service k) entry.1 api_key)
    as (safety & rca & Houtcome).
  by exists entry.1, safety, rca.
Qed.

Lemma completed_returned software_list api_key service order :
  Forall returned
    (snd <$> as_completed (tasks_of json_loads software_list api_key service) order).
Proof.
  apply Forall_fmap, Forall_forall. intros t Ht.
  by eapply tasks_of_returned, as_completed_elem_of.
Qed.

Lemma completed_length software_list api_key service order :
  order ≡ₚ seq 0 (length software_list) ->
  length (snd <$> as_completed (tasks_of json_loads software_list api_key service) order)
  = length software_list.
Proof.
  intros Hperm. rewrite length_fmap, as_completed_length.
  - by rewrite Hperm, length_seq.
  - unfold tasks_of. rewrite length_imap. by apply order_in_range.
Qed.

End WorkerFacts.




(** C1 fails on the code: the row of [update_row] is the position in the
    completion order, not the index of the entry.  For the batch
    [vim, curl, git], when git finishes first, then vim, then curl, the
    verdict of git (index 2) is emitted for row 0, which is vim, and the
    rows no longer identify the entries the verdicts belong to. *)
Theorem update_row_carries_completion_position :
  let tasks := tasks_of Sample.json_loads Sample.batch "key" Sample.batch_service in
  let outcome := async_run Sample.json_loads Sample.batch "key" Sample.batch_service
                   [2; 0; 1]%nat in
  snd <$> tasks = [Return ("vim"%string, PStr "SAFE", PStr "none");
                   Return ("curl"%string, PStr "SUSPICIOUS", PStr "unsigned");
                   Return ("git"%string, PStr "HARMFUL", PStr "bundles adware")] /\
  outcome.1 = [update_row 0 (PStr "HARMFUL") (PStr "bundles adware"); progress 33;
               update_row 1 (PStr "SAFE") (PStr "none"); progress 66;
               update_row 2 (PStr "SUSPICIOUS") (PStr "unsigned"); progress 100] /\
  ~ rows_identify (snd <$> tasks) outcome.1.
Proof.
  intros tasks outcome.
  assert (snd <$> tasks = [Return ("vim"%string, PStr "SAFE", PStr "none");
                           Return ("curl"%string, PStr "SUSPICIOUS", PStr "unsigned");
                           Return ("git"%string, PStr "HARMFUL", PStr "bundles adware")])
    as Htasks by (vm_compute; reflexivity).
  assert (outcome.1 = [update_row 0 (PStr "HARMFUL") (PStr "bundles adware"); progress 33;
                       update_row 1 (PStr "SAFE") (PStr "none"); progress 66;
                       update_row 2 (PStr "SUSPICIOUS") (PStr "unsigned"); progress 100])
    as Hsignals by (vm_compute; reflexivity).
  split; [exact Htasks |]. split; [exact Hsignals |].
  rewrite Htasks, Hsignals. intros Hidentify.
  destruct (Hidentify 0%nat (PStr "HARMFUL") (PStr "bundles adware")) as [name Hrow].
  - apply list_elem_of_here.
  - discriminate Hrow.
Qed.

(** Whatever the batch and the order of completion, when every verdict is
    one [emit] takes, the k-th progress value is [progress_percent] of the
    position [k] and the size of the batch. *)
Lemma progress_values
    (json_loads : string -> result pyval) (software_list : list (string * string))
    (api_key : string) (service : nat -> session) (order : list nat) :
  order ≡ₚ seq 0 (length software_list) ->
  forallb (fun t => verdict_emittable t.2)
    (tasks_of json_loads software_list api_key service) = true ->
  percents_of (async_run json_loads software_list api_key service order).1
  = (fun i => progress_percent i (length software_list)) <$> seq 0 (length software_list).
Proof.
  intros Hperm Hemit. unfold async_run.
  destruct (emit_loop_returned (length software_list) _ 0
              (completed_returned json_loads software_list api_key service order))
    as (_ & _ & Hpercents).
  { rewrite forallb_fmap. by apply as_completed_forallb. }
  by rewrite Hpercents, completed_length.
Qed.

(** The progress values of every batch of up to 200 entries, computed: in
    range, never decreasing, ending at 100, and at most one below the
    percentage of the specification. *)
Remark progress_checked_up_to_200 : forallb progress_checked (seq 1 200) = true.
Proof. vm_compute. reflexivity. Qed.

(** C7 fails on the code: the progress value is computed in floating point,
    [int((i+1)/len*100)], and falls short of [floor(100 * completed / total)]
    where the product rounds below the integer.  In a batch of 50 entries
    the 29th progress value is 57, while [floor(100 * 29 / 50) = 58]. *)
Theorem progress_below_floor_percent :
  let outcome := async_run Sample.json_loads Sample.fifty "key" Sample.failing_service
                   (seq 0 50) in
  outcome.2 = Return () /\
  percents_of outcome.1 !! 28%nat = Some 57 /\
  progress_percent 28 50 = 57 /\
  floor_percent 29 50 = 58.
Proof. vm_compute. repeat split; reflexivity. Qed.

(** ** The semaphore *)

Lemma in_flight_insert ws : forall k w rest b,
  ws !! k = Some w ->
  (sum_list_with occupancy (<[k := {| todo := rest; holds := b |}]> ws)
   + (if holds w then 1 else 0)
   = sum_list_with occupancy ws + (if b then 1 else 0))%nat.
Proof.
  induction ws as [| w0 ws IH]; intros [| k] w rest b Hk; try done.
  - injection Hk as ->.
    change (<[0%nat := ?x]> (w :: ws)) with (x :: ws).
    cbn [sum_list_with]. unfold occupancy at 1 3. cbn [holds]. lia.
  - cbn in Hk. specialize (IH k w rest b Hk).
    change (<[S k := ?x]> (w0 :: ws)) with (w0 :: <[k := x]> ws).
    cbn [sum_list_with]. lia.
Qed.

Lemma worker_ok_next_acquire w rest :
  worker_ok w -> todo w = Acquire :: rest ->
  holds w = false /\ exists body, rest = body ++ [Release] /\ forallb is_io body = true.
Proof.
  intros [[_ Hdone] | [[Hidle (body & Htodo & Hio)] | [_ (body & Htodo & Hio)]]] Hnext.
  - congruence.
  - rewrite Htodo in Hnext. injection Hnext as <-. eauto.
  - rewrite Htodo in Hnext. destruct body as [| a body]; [done |].
    injection Hnext as -> _. done.
Qed.

Lemma worker_ok_next_release w rest :
  worker_ok w -> todo w = Release :: rest -> holds w = true /\ rest = [].
Proof.
  intros [[_ Hdone] | [[Hidle (body & Htodo & Hio)] | [Hinside (body & Htodo & Hio)]]] Hnext.
  - congruence.
  - congruence.
  - rewrite Htodo in Hnext. destruct body as [| a body].
    + by injection Hnext as <-.
    + injection Hnext as -> _. done.
Qed.

Lemma worker_ok_next_io w a rest :
  worker_ok w -> todo w = a :: rest -> is_io a = true ->
  holds w = true /\ exists body, rest = body ++ [Release] /\ forallb is_io body = true.
Proof.
  intros [[_ Hdone] | [[Hidle (body & Htodo & Hio)] | [Hinside (body & Htodo & Hio)]]]
    Hnext Ha.
  - congruence.
  - rewrite Htodo in Hnext. injection Hnext as <- _. done.
  - rewrite Htodo in Hnext. destruct body as [| b body].
    + injection Hnext as <- _. done.
    + injection Hnext as -> <-. cbn in Hio. apply andb_true_iff in Hio as [_ Hio]. eauto.
Qed.

Lemma advance_ok k st st' : advance k st = Some st' -> loop_ok st -> loop_ok st'.
Proof.
  unfold advance, loop_ok, in_flight. intros Hstep [Hcount Hworkers].
  destruct (workers st !! k) as [w |] eqn:Hk; [| done]. cbn in Hstep.
  pose proof (Forall_lookup_1 _ _ _ _ Hworkers Hk) as Hw.
  destruct (todo w) as [| a rest] eqn:Htodo; [done |].
  destruct a as [| r | seconds |].
  - destruct (worker_ok_next_acquire _ _ Hw Htodo) as (Hidle & body & -> & Hio).
    destruct (permits st) as [| p] eqn:Hpermits; [done |].
    injection Hstep as <-. cbn [permits workers]. split.
    + pose proof (in_flight_insert _ _ _ (body ++ [Release]) true Hk) as Hsum.
      rewrite Hidle in Hsum. cbv iota in Hsum. lia.
    + apply Forall_insert; [done |]. right. right. cbn. eauto.
  - destruct (worker_ok_next_io _ _ _ Hw Htodo eq_refl) as (Hinside & body & -> & Hio).
    injection Hstep as <-. cbn [permits workers]. split.
    + pose proof (in_flight_insert _ _ _ (body ++ [Release]) (holds w) Hk) as Hsum.
      rewrite Hinside in *. cbv iota in Hsum. lia.
    + apply Forall_insert; [done |]. right. right. cbn. eauto.
  - destruct (worker_ok_next_io _ _ _ Hw Htodo eq_refl) as (Hinside & body & -> & Hio).
    injection Hstep as <-. cbn [permits workers]. split.
    + pose proof (in_flight_insert _ _ _ (body ++ [Release]) (holds w) Hk) as Hsum.
      rewrite Hinside in *. cbv iota in Hsum. lia.
    + apply Forall_insert; [done |]. right. right. cbn. eauto.
  - destruct (worker_ok_next_release _ _ Hw Htodo) as [Hinside ->].
    injection Hstep as <-. cbn [permits workers]. split.
    + pose proof (in_flight_insert _ _ _ [] false Hk) as Hsum.
      rewrite Hinside in Hsum. cbv iota in Hsum. lia.
    + apply Forall_insert; [done |]. left. done.
Qed.

Lemma run_ok schedule : forall st st',
  run schedule st = Some st' -> loop_ok st -> loop_ok st'.
Proof.
  induction schedule as [| k schedule IH]; intros st st' Hrun Hok.
  - by injection Hrun as <-.
  - cbn in Hrun. destruct (advance k st) as [st1 |] eqn:Hstep; [| done].
    eapply IH; [exact Hrun |]. by eapply advance_ok.
Qed.

Lemma dispatch_in_flight {A} (tasks : list (task A)) : in_flight (dispatch tasks) = 0%nat.
Proof. unfold in_flight, dispatch. cbn. by induction tasks. Qed.

Lemma dispatch_ok json_loads software_list api_key service :
  loop_ok (dispatch (tasks_of json_loads software_list api_key service)).
Proof.
  split; [by rewrite dispatch_in_flight |].
  unfold dispatch. cbn. apply Forall_fmap, Forall_forall. intros t Ht.
  unfold tasks_of in Ht. apply list_elem_of_lookup_1 in Ht as [k Hk].
  rewrite list_lookup_imap in Hk.
  destruct (software_list !! k) as [entry |]; [| done]. injection Hk as <-.
  right. left. cbn [todo holds]. split; [done |].
  rewrite check_software_risk_async_unfold. cbn [fst]. eexists. split; [done |].
  apply safe_post_loop_io.
Qed.

(** C9: in every state the event loop can reach from the start of a batch,
    whatever the interleaving, at most [MAX_CONCURRENT_REQUESTS] tasks are
    inside [async with semaphore]; a task whose next action is a POST or a
    backoff sleep is one of them; and once that many are inside, a task
    that has not entered yet cannot move, so it starts no request. *)
Theorem in_flight_bounded
    (json_loads : string -> result pyval) (software_list : list (string * string))
    (api_key : string) (service : nat -> session) (schedule : list nat) (st : loop_state) :
  run schedule (dispatch (tasks_of json_loads software_list api_key service)) = Some st ->
  (in_flight st <= MAX_CONCURRENT_REQUESTS)%nat /\
  (forall k w a rest,
     workers st !! k = Some w -> todo w = a :: rest -> is_io a = true -> holds w = true) /\
  (in_flight st = MAX_CONCURRENT_REQUESTS ->
   forall k w,
     workers st !! k = Some w -> holds w = false -> advance k st = None).
Proof.
  intros Hrun.
  destruct (run_ok _ _ _ Hrun (dispatch_ok json_loads software_list api_key service))
    as [Hcount Hworkers].
  split; [lia |]. split.
  - intros k w a rest Hk Htodo Ha.
    pose proof (Forall_lookup_1 _ _ _ _ Hworkers Hk) as Hw.
    by destruct (worker_ok_next_io _ _ _ Hw Htodo Ha).
  - intros Hfull k w Hk Hidle. unfold advance. rewrite Hk. cbn.
    pose proof (Forall_lookup_1 _ _ _ _ Hworkers Hk) as Hw.
    destruct Hw as [[_ ->] | [[_ (body & -> & _)] | [Hinside _]]].
    + done.
    + replace (permits st) with 0%nat by lia. done.
    + congruence.
Qed.

Lemma in_flight_bounded_witness :
  exists st,
    run [0; 1; 2; 3; 4; 0; 1]%nat
      (dispatch (tasks_of Sample.json_loads Sample.six "key" Sample.failing_service))
    = Some st /\
    (in_flight st <= MAX_CONCURRENT_REQUESTS)%nat.
Proof.
  eexists. split; [vm_compute; reflexivity |].
  eapply (in_flight_bounded Sample.json_loads Sample.six "key" Sample.failing_service
            [0; 1; 2; 3; 4; 0; 1]%nat).
  vm_compute. reflexivity.
Defined.

(** * Further properties *)

(** ** What a call of [safe_post] amounts to *)

Lemma retryable_false rp :
  retryable rp = false ->
  exists status body, rp = Status status (Return body) /\ status <> 429.
Proof.
  destruct rp as [e | status [body | e]]; cbn; try done.
  intros Hstatus. exists status, body. split; [done |]. by apply Z.eqb_neq.
Qed.

Section RetryOutcome.

Variables (s : session) (r : request) (delay : Z).

(** Among the attempts [first .. first + count - 1] either all get a
    retryable reply, or there is a first one that does not. *)
Lemma first_terminal_reply count : forall first,
  (forall j, (first <= j < first + count)%nat -> retryable (s r j) = true) \/
  (exists k, (first <= k < first + count)%nat /\
             (forall j, (first <= j < k)%nat -> retryable (s r j) = true) /\
             retryable (s r k) = false).
Proof.
  induction count as [| count IH]; intros first.
  - left. intros j Hj. lia.
  - destruct (retryable (s r first)) eqn:Hfirst.
    + destruct (IH (S first)) as [Hall | (k & Hk & Hbefore & Hlast)].
      * left. intros j Hj. destruct (decide (j = first)) as [-> | Hne]; [done |].
        apply Hall. lia.
      * right. exists k. split; [lia |]. split; [| done].
        intros j Hj. destruct (decide (j = first)) as [-> | Hne]; [done |].
        apply Hbefore. lia.
    + right. exists first. split; [lia |]. split; [| done]. intros j Hj. lia.
Qed.

(** The two ways a call ends: every attempt failed, or the first reply that
    is not retryable is returned. *)
Lemma safe_post_loop_cases retries :
  ((forall j, (j < retries)%nat -> retryable (s r j) = true) /\
   safe_post_loop s r delay (seq 0 retries)
   = (backoff r delay 0 retries, (None, "Max retries exceeded"%string)))
  \/
  (exists k status body,
     (k < retries)%nat /\
     (forall j, (j < k)%nat -> retryable (s r j) = true) /\
     s r k = Status status (Return body) /\ status <> 429 /\
     safe_post_loop s r delay (seq 0 retries)
     = (backoff r delay 0 k ++ [Post r], (Some status, body))).
Proof.
  destruct (first_terminal_reply retries 0) as [Hall | (k & Hk & Hbefore & Hlast)].
  - left. split; [intros j Hj; apply Hall; lia |].
    apply safe_post_loop_exhausted. intros j Hj. apply Hall. lia.
  - right. destruct (retryable_false _ Hlast) as (status & body & Hreply & Hstatus).
    exists k, status, body.
    assert (forall j, (j < k)%nat -> retryable (s r j) = true) as Hretry
      by (intros j Hj; apply Hbefore; lia).
    repeat split; [lia | done | done | done |].
    apply safe_post_loop_terminal; [lia | done | done | done].
Qed.

End RetryOutcome.

Lemma length_backoff r delay count : forall first,
  length (backoff r delay first count) = (2 * count)%nat.
Proof.
  induction count as [| count IH]; intros first; [done |].
  rewrite backoff_S. cbn [length]. rewrite IH. lia.
Qed.

Lemma sleeps_of_app log log' : sleeps_of (log ++ log') = sleeps_of log ++ sleeps_of log'.
Proof. apply omap_app. Qed.

Lemma total_backoff_sleeps delay count :
  2 * total ((fun j => delay * (Z.of_nat j + 1)) <$> seq 0 count)
  = delay * Z.of_nat count * (Z.of_nat count + 1).
Proof.
  induction count as [| count IH]; [cbn; lia |].
  rewrite seq_S, fmap_app. unfold total in *. rewrite foldr_app. cbn [fmap list_fmap foldr].
  rewrite Z.add_0_r.
  assert (forall (l : list Z) (z : Z), foldr Z.add z l = foldr Z.add 0 l + z) as Hshift.
  { induction l as [| x l IHl]; intros z; cbn; [lia |]. rewrite IHl. lia. }
  rewrite Hshift. cbn [plus] in *. nia.
Qed.

(** X1: a call of [safe_post] is a run of failed attempts, each a POST
    followed at once by its sleep, and then either nothing more (the call
    returns [None]) or one last POST with no sleep after it (the call
    returns the reply to that POST).  So it makes at most [retries] POSTs,
    at least one when [retries] is positive; it never sleeps before its
    first POST; a call that returns [None] has slept after every POST and a
    call that returns a reply has slept after every POST but the last. *)
Theorem safe_post_attempts_bounded
    (s : session) (json_payload : pyval) (headers : gmap string string)
    (retries : nat) (delay : Z) :
  let r := {| url := PERPLEXITY_CHAT_URL; json_payload := json_payload;
              headers := headers; timeout := 20 |} in
  let call := safe_post s json_payload headers retries delay in
  (exists failed,
     (call.2.1 = None /\ failed = retries /\ call.1 = backoff r delay 0 failed) \/
     (call.2.1 <> None /\ (failed < retries)%nat /\
      call.1 = backoff r delay 0 failed ++ [Post r])) /\
  (length (posts_of call.1) <= retries)%nat /\
  ((0 < retries)%nat -> (1 <= length (posts_of call.1))%nat) /\
  (length (sleeps_of call.1) <= length (posts_of call.1))%nat /\
  (length (posts_of call.1) <= S (length (sleeps_of call.1)))%nat /\
  (call.2.1 = None -> length (sleeps_of call.1) = length (posts_of call.1)) /\
  (call.2.1 <> None -> length (posts_of call.1) = S (length (sleeps_of call.1))).
Proof.
  intros r call. subst call. rewrite safe_post_unfold. fold r.
  destruct (safe_post_loop_cases s r delay retries)
    as [[_ ->] | (k & status & body & Hk & _ & _ & _ & ->)]; cbn [fst snd].
  - split; [exists retries; left; done |].
    rewrite posts_of_backoff, sleeps_of_backoff, length_replicate, length_fmap, length_seq.
    repeat split; try lia. done.
  - split; [exists k; right; done |].
    rewrite posts_of_app, sleeps_of_app, posts_of_backoff, sleeps_of_backoff.
    rewrite !length_app, length_replicate, length_fmap, length_seq. cbn.
    repeat split; try lia. done.
Qed.

(** X2: the result of [safe_post] is decided by the first reply that is not
    retryable.  The status returned is never 429: it is [None], with the text
    "Max retries exceeded", exactly when every one of the [retries] attempts
    got a retryable reply; otherwise it is the status and the body of the
    first reply that is not retryable, and no POST follows that reply. *)
Theorem safe_post_returns_first_terminal_reply
    (s : session) (json_payload : pyval) (headers : gmap string string)
    (retries : nat) (delay : Z) :
  let r := {| url := PERPLEXITY_CHAT_URL; json_payload := json_payload;
              headers := headers; timeout := 20 |} in
  let call := safe_post s json_payload headers retries delay in
  call.2.1 <> Some 429 /\
  (call.2.1 = None <-> forall j, (j < retries)%nat -> retryable (s r j) = true) /\
  (call.2.1 = None -> call.2.2 = "Max retries exceeded"%string) /\
  (forall status, call.2.1 = Some status ->
     exists k, (k < retries)%nat /\
               (forall j, (j < k)%nat -> retryable (s r j) = true) /\
               s r k = Status status (Return call.2.2) /\
               length (posts_of call.1) = S k /\
               last call.1 = Some (Post r)).
Proof.
  intros r call. subst call. rewrite safe_post_unfold. fold r.
  destruct (safe_post_loop_cases s r delay retries)
    as [[Hall ->] | (k & status & body & Hk & Hbefore & Hreply & Hstatus & ->)];
    cbn [fst snd].
  - split; [done |]. split; [done |]. split; [done |]. intros status Hsome. done.
  - split; [congruence |]. split; [| split; [done |]].
    + split; [done |]. intros Hall. specialize (Hall k Hk).
      rewrite Hreply in Hall. cbn in Hall. apply Z.eqb_eq in Hall. done.
    + intros status' [= <-]. exists k. repeat split; try done.
      * rewrite posts_of_app, posts_of_backoff, length_app, length_replicate. cbn. lia.
      * by rewrite last_snoc.
Qed.

(** X3: the seconds a call of [safe_post] sleeps add up to at most
    [delay * retries * (retries + 1) / 2] when [delay] is not negative: 30
    seconds with the defaults. *)
Theorem safe_post_total_sleep_bounded
    (s : session) (json_payload : pyval) (headers : gmap string string)
    (retries : nat) (delay : Z) :
  0 <= delay ->
  2 * total (sleeps_of (safe_post s json_payload headers retries delay).1)
  <= delay * Z.of_nat retries * (Z.of_nat retries + 1).
Proof.
  intros Hdelay. rewrite safe_post_unfold.
  set (r := {| url := PERPLEXITY_CHAT_URL; json_payload := json_payload;
               headers := headers; timeout := 20 |}).
  destruct (safe_post_loop_cases s r delay retries)
    as [[_ ->] | (k & status & body & Hk & _ & _ & _ & ->)]; cbn [fst snd].
  - rewrite sleeps_of_backoff, total_backoff_sleeps. lia.
  - rewrite sleeps_of_app, sleeps_of_backoff. cbn. rewrite app_nil_r.
    rewrite total_backoff_sleeps. nia.
Qed.

Lemma safe_post_total_sleep_bounded_witness :
  total (sleeps_of (safe_post (scripted []) PNone ∅ MAX_RETRIES RETRY_DELAY).1) <= 30.
Proof.
  pose proof (safe_post_total_sleep_bounded (scripted []) PNone ∅ MAX_RETRIES RETRY_DELAY)
    as Hbound.
  unfold RETRY_DELAY, MAX_RETRIES in *. lia.
Defined.
(** X4: unless one of the first [MAX_RETRIES] replies is a status 200 whose
    body can be read, the classification of an entry is
    [(UNKNOWN, "Error fetching data")], whatever went wrong (another status,
    exceptions, exhausted retries). *)
Theorem no_readable_200_is_a_fetch_error
    (json_loads : string -> result pyval) (s : session) (software_name api_key : string) :
  (forall k body, (k < MAX_RETRIES)%nat ->
     s (request_for software_name api_key) k <> Status 200 (Return body)) ->
  (check_software_risk_async json_loads s software_name api_key).2
  = Return (software_name, UNKNOWN, PStr "Error fetching data").
Proof.
  intros Hno200. rewrite check_software_risk_async_unfold. cbn [snd].
  destruct (safe_post_loop_cases s (request_for software_name api_key) RETRY_DELAY MAX_RETRIES)
    as [[_ ->] | (k & status & body & Hk & _ & Hreply & _ & ->)]; cbn [fst snd].
  - done.
  - rewrite bool_decide_eq_true_2; [done |].
    intros [= ->]. by eapply Hno200.
Qed.

Lemma no_readable_200_is_a_fetch_error_witness :
  (check_software_risk_async Sample.json_loads
     (scripted [Status 429 (Return "slow down"%string);
                Status 404 (Return "Not Found"%string)]) "vim" "key").2
  = Return ("vim"%string, UNKNOWN, PStr "Error fetching data").
Proof.
  apply no_readable_200_is_a_fetch_error.
  intros [| [| [| k]]] body Hk; [discriminate | discriminate | discriminate |].
  unfold MAX_RETRIES in Hk. lia.
Defined.

Lemma io_is_not_acquire body :
  forallb is_io body = true ->
  List.filter (fun a => match a with Acquire => true | _ => false end) body = [].
Proof.
  induction body as [| a body IH]; [done |].
  cbn. intros [Ha Hbody]%andb_true_iff. destruct a; try done; by apply IH.
Qed.

Lemma io_is_not_release body :
  forallb is_io body = true ->
  List.filter (fun a => match a with Release => true | _ => false end) body = [].
Proof.
  induction body as [| a body IH]; [done |].
  cbn. intros [Ha Hbody]%andb_true_iff. destruct a; try done; by apply IH.
Qed.

(** X5: on every path, errors included, the task of an entry takes the
    semaphore exactly once, before anything else, and gives it back exactly
    once, as its last action; every POST and every sleep lies in between. *)
Theorem semaphore_taken_and_released_once
    (json_loads : string -> result pyval) (s : session) (software_name api_key : string) :
  let log := (check_software_risk_async json_loads s software_name api_key).1 in
  (exists body, log = Acquire :: body ++ [Release] /\ forallb is_io body = true) /\
  acquires_of log = 1%nat /\ releases_of log = 1%nat.
Proof.
  intros log. subst log. rewrite check_software_risk_async_unfold. cbn [fst].
  pose proof (safe_post_loop_io s (request_for software_name api_key) RETRY_DELAY
                (seq 0 MAX_RETRIES)) as Hio.
  split; [eauto |].
  unfold acquires_of, releases_of. cbn [List.filter].
  rewrite !List.filter_app, io_is_not_acquire, io_is_not_release by done. done.
Qed.
(** ** Which verdict a row receives *)

Lemma as_completed_lookup {A} (tasks : list A) order :
  Forall (fun k => (k < length tasks)%nat) order ->
  forall i, as_completed tasks order !! i = order !! i ≫= (tasks !!.).
Proof.
  unfold as_completed. induction 1 as [| k order Hk _ IH]; intros i; [done |].
  cbn. destruct (lookup_lt_is_Some_2 tasks k Hk) as [t Ht]. rewrite Ht. cbn.
  destruct i as [| i]; cbn; [done | apply IH].
Qed.

Lemma emit_loop_update_row total completed : forall i row safety rca,
  update_row row safety rca ∈ (emit_loop total i completed).1 ->
  (i <= row)%nat /\
  exists name, completed !! (row - i)%nat = Some (Return (name, safety, rca)).
Proof.
  induction completed as [| outcome rest IH]; intros i row safety rca Hin.
  - by apply elem_of_nil in Hin.
  - cbn [emit_loop] in Hin. destruct outcome as [[[name safety'] rca'] | e].
    + destruct (emittable safety' && emittable rca'); [| by apply elem_of_nil in Hin].
      specialize (IH (S i) row safety rca).
      destruct (emit_loop total (S i) rest) as [signals r]. cbn [fst] in *.
      apply elem_of_cons in Hin as [[= -> -> ->] | Hin].
      * split; [lia |]. exists name. by rewrite Nat.sub_diag.
      * apply elem_of_cons in Hin as [Hin | Hin]; [done |].
        destruct (IH Hin) as [Hle [name' Hrow]]. split; [lia |]. exists name'.
        by replace (row - i)%nat with (S (row - S i)) by lia.
    + by apply elem_of_nil in Hin.
Qed.

Lemma update_row_origin json_loads software_list api_key service order row safety rca :
  order ≡ₚ seq 0 (length software_list) ->
  update_row row safety rca
    ∈ (async_run json_loads software_list api_key service order).1 ->
  exists k name,
    order !! row = Some k /\
    (snd <$> tasks_of json_loads software_list api_key service) !! k
    = Some (Return (name, safety, rca)).
Proof.
  intros Hperm Hin. unfold async_run in Hin.
  apply emit_loop_update_row in Hin as [_ [name Hrow]].
  rewrite Nat.sub_0_r, list_lookup_fmap, as_completed_lookup in Hrow.
  - destruct (order !! row) as [k |]; [| done]. cbn in Hrow.
    exists k, name. split; [done |]. by rewrite list_lookup_fmap.
  - unfold tasks_of. rewrite length_imap. by apply order_in_range.
Qed.

(** X6: the verdict emitted for row [i] is the verdict of the entry whose
    task finished in position [i]: [update_row i safety rca] is emitted only
    if [(safety, rca)] is what the task of entry [order[i]] returned. *)
Theorem update_row_carries_verdict_of_ith_finished
    (json_loads : string -> result pyval) (software_list : list (string * string))
    (api_key : string) (service : nat -> session) (order : list nat)
    (row : nat) (safety rca : pyval) :
  order ≡ₚ seq 0 (length software_list) ->
  update_row row safety rca
    ∈ (async_run json_loads software_list api_key service order).1 ->
  exists k entry,
    order !! row = Some k /\
    software_list !! k = Some entry /\
    (check_software_risk_async json_loads (service k) entry.1 api_key).2
    = Return (entry.1, safety, rca).
Proof.
  intros Hperm Hin.
  destruct (update_row_origin _ _ _ _ _ _ _ _ Hperm Hin) as (k & name & Hk & Htask).
  unfold tasks_of in Htask. rewrite list_lookup_fmap, list_lookup_imap in Htask.
  destruct (software_list !! k) as [entry |] eqn:Hentry; [| done].
  exists k, entry. split; [done |]. split; [done |].
  cbn in Htask. injection Htask as Htask.
  destruct (check_software_risk_async_returns json_loads (service k) entry.1 api_key)
    as (safety' & rca' & Hreturned).
  rewrite Hreturned in Htask |- *. congruence.
Qed.

Lemma update_row_carries_verdict_of_ith_finished_witness :
  exists k entry,
    [2; 0; 1]%nat !! 0%nat = Some k /\
    Sample.batch !! k = Some entry /\
    (check_software_risk_async Sample.json_loads (Sample.batch_service k) entry.1 "key").2
    = Return (entry.1, PStr "HARMFUL", PStr "bundles adware").
Proof.
  apply (update_row_carries_verdict_of_ith_finished Sample.json_loads Sample.batch "key"
           Sample.batch_service [2; 0; 1]%nat 0 (PStr "HARMFUL") (PStr "bundles adware")).
  - apply (bool_decide_unpack _). vm_compute. exact I.
  - vm_compute. apply list_elem_of_here.
Defined.

(** X7: when the tasks finish in the order of the software list, every
    [update_row] names the row of the entry its verdict belongs to. *)
Theorem rows_identify_in_input_order
    (json_loads : string -> result pyval) (software_list : list (string * string))
    (api_key : string) (service : nat -> session) :
  rows_identify (snd <$> tasks_of json_loads software_list api_key service)
    (async_run json_loads software_list api_key service
       (seq 0 (length software_list))).1.
Proof.
  intros row safety rca Hin.
  destruct (update_row_origin _ _ _ _ _ _ _ _ (reflexivity _) Hin) as (k & name & Hk & Htask).
  apply lookup_seq in Hk as [-> _]. eauto.
Qed.
(** ** Progress of the event loop *)

Lemma sum_list_with_insert {A} (f : A -> nat) (l : list A) : forall k x y,
  l !! k = Some x ->
  (sum_list_with f (<[k := y]> l) + f x = sum_list_with f l + f y)%nat.
Proof.
  induction l as [| x0 l IH]; intros [| k] x y Hk; try done.
  - injection Hk as ->. change (<[0%nat := y]> (x :: l)) with (y :: l).
    cbn [sum_list_with]. lia.
  - cbn in Hk. specialize (IH k x y Hk).
    change (<[S k := y]> (x0 :: l)) with (x0 :: <[k := y]> l).
    cbn [sum_list_with]. lia.
Qed.

Lemma sum_list_with_positive {A} (f : A -> nat) (l : list A) :
  (0 < sum_list_with f l)%nat -> exists k x, l !! k = Some x /\ (0 < f x)%nat.
Proof.
  induction l as [| x l IH]; cbn [sum_list_with]; [lia |].
  intros Hsum. destruct (decide (0 < f x)%nat) as [Hx | Hx].
  - by exists 0%nat, x.
  - destruct IH as (k & y & Hk & Hy); [lia |]. by exists (S k), y.
Qed.

Lemma sum_list_with_zero {A} (f : A -> nat) (l : list A) :
  sum_list_with f l = 0%nat -> Forall (fun x => f x = 0%nat) l.
Proof.
  induction l as [| x l IH]; cbn [sum_list_with]; [by constructor |].
  intros Hsum. constructor; [lia | apply IH; lia].
Qed.

(** Each step of the event loop performs exactly one action. *)
Lemma advance_remaining k st st' :
  advance k st = Some st' -> remaining st = S (remaining st').
Proof.
  unfold advance, remaining. intros Hstep.
  destruct (workers st !! k) as [w |] eqn:Hk; [| done]. cbn in Hstep.
  destruct (todo w) as [| a rest] eqn:Htodo; [done |].
  assert (forall b p, Some {| permits := p;
                              workers := <[k := {| todo := rest; holds := b |}]> (workers st) |}
                      = Some st' ->
                      sum_list_with (fun w => length (todo w)) (workers st)
                      = S (sum_list_with (fun w => length (todo w)) (workers st')))
    as Hcount.
  { intros b p [= <-]. cbn [workers].
    pose proof (sum_list_with_insert (fun w => length (todo w)) _ _ _
                  {| todo := rest; holds := b |} Hk) as Hsum.
    cbn [todo] in Hsum. rewrite Htodo in Hsum. cbn [length] in Hsum. lia. }
  destruct a as [| r | seconds |]; [destruct (permits st); [done |] | | |]; eauto.
Qed.

Lemma run_remaining schedule : forall st st',
  run schedule st = Some st' -> remaining st = (length schedule + remaining st')%nat.
Proof.
  induction schedule as [| k schedule IH]; intros st st' Hrun.
  - by injection Hrun as <-.
  - cbn in Hrun. destruct (advance k st) as [st1 |] eqn:Hstep; [| done].
    rewrite (advance_remaining _ _ _ Hstep), (IH _ _ Hrun). cbn. lia.
Qed.

(** In a state that satisfies the invariant, a task that holds the semaphore
    can always move, and so can one that waits while a permit is left. *)
Lemma advance_possible st :
  loop_ok st -> (0 < remaining st)%nat -> exists k st', advance k st = Some st'.
Proof.
  intros [Hcount Hworkers] Hleft.
  assert (forall k w, workers st !! k = Some w -> holds w = true ->
                      exists st', advance k st = Some st') as Hinside.
  { intros k w Hk Hholds. unfold advance. rewrite Hk. cbn.
    pose proof (Forall_lookup_1 _ _ _ _ Hworkers Hk) as Hw.
    destruct Hw as [[Hidle _] | [[Hidle _] | [_ (body & -> & Hio)]]]; try congruence.
    destruct body as [| a body]; cbn; [eauto |].
    cbn in Hio. apply andb_true_iff in Hio as [Ha _]. destruct a; try done; eauto. }
  apply sum_list_with_positive in Hleft as (k & w & Hk & Hw).
  destruct (holds w) eqn:Hholds; [destruct (Hinside k w Hk Hholds); eauto |].
  destruct (permits st) as [| p] eqn:Hpermits.
  - assert (0 < in_flight st)%nat as Hbusy by (unfold MAX_CONCURRENT_REQUESTS in Hcount; lia).
    apply sum_list_with_positive in Hbusy as (k' & w' & Hk' & Hw').
    unfold occupancy in Hw'. destruct (holds w') eqn:Hholds'; [| lia].
    destruct (Hinside k' w' Hk' Hholds'); eauto.
  - exists k. unfold advance. rewrite Hk. cbn.
    pose proof (Forall_lookup_1 _ _ _ _ Hworkers Hk) as Hok.
    destruct Hok as [[_ Hdone] | [[_ (body & -> & _)] | [Hin _]]].
    + rewrite Hdone in Hw. cbn in Hw. lia.
    + rewrite Hpermits. eauto.
    + congruence.
Qed.

Lemma run_app schedule schedule' st :
  run (schedule ++ schedule') st = run schedule st ≫= run schedule'.
Proof.
  revert st. induction schedule as [| k schedule IH]; intros st; [done |].
  cbn. destruct (advance k st) as [st1 |]; [apply IH | done].
Qed.

Lemma run_to_completion n : forall st,
  loop_ok st -> remaining st = n ->
  exists schedule st', run schedule st = Some st' /\ remaining st' = 0%nat.
Proof.
  induction n as [| n IH]; intros st Hok Hleft.
  - by exists [], st.
  - destruct (advance_possible st Hok) as (k & st1 & Hstep); [lia |].
    destruct (IH st1) as (schedule & st' & Hrun & Hdone).
    + by eapply advance_ok.
    + pose proof (advance_remaining _ _ _ Hstep). lia.
    + exists (k :: schedule), st'. cbn. by rewrite Hstep.
Qed.

Lemma nothing_remaining_finished st :
  loop_ok st -> remaining st = 0%nat ->
  all_finished st /\ permits st = MAX_CONCURRENT_REQUESTS.
Proof.
  intros [Hcount Hworkers] Hleft.
  apply sum_list_with_zero in Hleft.
  assert (all_finished st) as Hfinished.
  { unfold all_finished. apply Forall_forall. intros w Hw.
    rewrite Forall_forall in Hleft, Hworkers.
    specialize (Hleft w Hw). specialize (Hworkers w Hw). cbn in Hleft.
    apply nil_length_inv in Hleft.
    destruct Hworkers as [[Hidle _] | [[_ (body & Hbody & _)] | [_ (body & Hbody & _)]]].
    - done.
    - rewrite Hleft in Hbody. done.
    - rewrite Hleft in Hbody. by destruct body. }
  split; [done |].
  assert (in_flight st = 0%nat) as Hnone.
  { unfold in_flight. clear Hcount Hworkers Hleft.
    induction Hfinished as [| w ws [_ Hidle] _ IH]; [done |].
    cbn [sum_list_with]. unfold occupancy at 1. rewrite Hidle. by rewrite IH. }
  lia.
Qed.

Lemma all_finished_remaining st : all_finished st -> remaining st = 0%nat.
Proof.
  unfold all_finished, remaining. induction 1 as [| w ws [Hdone _] _ IH]; [done |].
  cbn [sum_list_with]. by rewrite Hdone, IH.
Qed.

Section BatchLoop.

Variable json_loads : string -> result pyval.

Lemma task_log_length s name key :
  (length (check_software_risk_async json_loads s name key).1 <= 2 * MAX_RETRIES + 2)%nat.
Proof.
  rewrite check_software_risk_async_unfold. cbn [fst length].
  rewrite length_app. cbn [length].
  destruct (safe_post_loop_cases s (request_for name key) RETRY_DELAY MAX_RETRIES)
    as [[_ ->] | (k & status & body & Hk & _ & _ & _ & ->)]; cbn [fst snd].
  - rewrite length_backoff. lia.
  - rewrite length_app, length_backoff. cbn [length]. lia.
Qed.

End BatchLoop.

Lemma dispatch_remaining json_loads software_list api_key : forall service,
  (remaining (dispatch (tasks_of json_loads software_list api_key service))
   <= (2 * MAX_RETRIES + 2) * length software_list)%nat.
Proof.
  unfold remaining, dispatch, tasks_of. cbn [workers].
  induction software_list as [| entry entries IH]; intros service; [cbn; lia |].
  cbn [imap fmap list_fmap sum_list_with todo length].
  pose proof (task_log_length json_loads (service 0%nat) entry.1 api_key).
  replace ((2 * MAX_RETRIES + 2) * S (length entries))%nat
    with ((2 * MAX_RETRIES + 2) + (2 * MAX_RETRIES + 2) * length entries)%nat by lia.
  apply Nat.add_le_mono; [done |]. exact (IH (fun k => service (S k))).
Qed.

(** X8: the batch cannot deadlock.  In every state the event loop can reach,
    as long as some task has an action left, some task can perform its next
    action. *)
Theorem event_loop_never_stuck
    (json_loads : string -> result pyval) (software_list : list (string * string))
    (api_key : string) (service : nat -> session) (schedule : list nat) (st : loop_state) :
  run schedule (dispatch (tasks_of json_loads software_list api_key service)) = Some st ->
  (exists k w, workers st !! k = Some w /\ todo w <> []) ->
  exists k st', advance k st = Some st'.
Proof.
  intros Hrun (k & w & Hk & Htodo).
  apply advance_possible.
  - eapply run_ok; [exact Hrun | apply dispatch_ok].
  - unfold remaining.
    pose proof (sum_list_with_in w (fun w => length (todo w)) (workers st)) as Hle.
    assert (0 < length (todo w))%nat by (destruct (todo w); [done | cbn; lia]).
    assert (w ∈ workers st) by (by eapply list_elem_of_lookup_2).
    specialize (Hle ltac:(done)). cbn in Hle. lia.
Qed.

Lemma event_loop_never_stuck_witness :
  exists k st',
    advance k (dispatch (tasks_of Sample.json_loads Sample.six "key" Sample.failing_service))
    = Some st'.
Proof.
  apply (event_loop_never_stuck Sample.json_loads Sample.six "key" Sample.failing_service
           [] _ eq_refl).
  eexists 0%nat, _. split; [vm_compute; reflexivity |]. discriminate.
Defined.

(** X9: the event loop performs one action of one task per step, and a task
    has at most [2 * MAX_RETRIES + 2] actions, so no run of a batch of N
    entries is longer than [(2 * MAX_RETRIES + 2) * N] steps. *)
Theorem event_loop_run_bounded
    (json_loads : string -> result pyval) (software_list : list (string * string))
    (api_key : string) (service : nat -> session) (schedule : list nat) (st : loop_state) :
  run schedule (dispatch (tasks_of json_loads software_list api_key service)) = Some st ->
  (length schedule + remaining st <= (2 * MAX_RETRIES + 2) * length software_list)%nat.
Proof.
  intros Hrun. rewrite <- (run_remaining _ _ _ Hrun). apply dispatch_remaining.
Qed.

Lemma event_loop_run_bounded_witness :
  exists st,
    run [0; 1; 0]%nat
      (dispatch (tasks_of Sample.json_loads Sample.batch "key" Sample.batch_service))
    = Some st /\
    (3 + remaining st <= 24)%nat.
Proof.
  eexists. split; [vm_compute; reflexivity |].
  apply (event_loop_run_bounded Sample.json_loads Sample.batch "key" Sample.batch_service
           [0; 1; 0]%nat).
  vm_compute. reflexivity.
Defined.

(** X10: every batch can be run to its end: some interleaving leads to a
    state in which every task has performed all its actions. *)
Theorem batch_can_complete
    (json_loads : string -> result pyval) (software_list : list (string * string))
    (api_key : string) (service : nat -> session) :
  exists schedule st,
    run schedule (dispatch (tasks_of json_loads software_list api_key service)) = Some st /\
    all_finished st /\
    length (workers st) = length software_list.
Proof.
  pose proof (dispatch_ok json_loads software_list api_key service) as Hok.
  destruct (run_to_completion _ _ Hok eq_refl) as (schedule & st & Hrun & Hdone).
  exists schedule, st. split; [done |].
  pose proof (run_ok _ _ _ Hrun Hok) as Hok'.
  split; [by apply nothing_remaining_finished |].
  clear Hdone Hok Hok'.
  assert (forall schedule st st', run schedule st = Some st' ->
                                  length (workers st') = length (workers st)) as Hlength.
  { clear. induction schedule as [| k schedule IH]; intros st st' Hrun.
    - by injection Hrun as <-.
    - cbn in Hrun. destruct (advance k st) as [st1 |] eqn:Hstep; [| done].
      rewrite (IH _ _ Hrun). unfold advance in Hstep.
      destruct (workers st !! k) as [w |]; [| done]. cbn in Hstep.
      destruct (todo w) as [| [| r | seconds |] rest]; try done;
        [destruct (permits st); [done |] | | |];
        injection Hstep as <-; cbn; apply length_insert. }
  rewrite (Hlength _ _ _ Hrun). unfold dispatch, tasks_of. cbn.
  by rewrite length_fmap, length_imap.
Qed.

(** X11: whenever the event loop reaches a state in which every task of the
    batch is finished, the semaphore is back at its initial value
    [MAX_CONCURRENT_REQUESTS]: no permit is lost. *)
Theorem permits_restored_at_the_end
    (json_loads : string -> result pyval) (software_list : list (string * string))
    (api_key : string) (service : nat -> session) (schedule : list nat) (st : loop_state) :
  run schedule (dispatch (tasks_of json_loads software_list api_key service)) = Some st ->
  all_finished st ->
  permits st = MAX_CONCURRENT_REQUESTS /\ in_flight st = 0%nat.
Proof.
  intros Hrun Hfinished.
  pose proof (run_ok _ _ _ Hrun (dispatch_ok json_loads software_list api_key service))
    as Hok.
  destruct (nothing_remaining_finished st Hok (all_finished_remaining st Hfinished))
    as [_ Hpermits].
  split; [done |]. destruct Hok as [Hcount _]. lia.
Qed.

Lemma permits_restored_at_the_end_witness :
  exists st,
    run [0; 0; 0]%nat
      (dispatch (tasks_of Sample.json_loads [("vim", "9.1")]%string "key"
                   Sample.batch_service))
    = Some st /\
    permits st = MAX_CONCURRENT_REQUESTS.
Proof.
  eexists. split; [vm_compute; reflexivity |].
  eapply (permits_restored_at_the_end Sample.json_loads [("vim", "9.1")]%string "key"
            Sample.batch_service [0; 0; 0]%nat).
  - vm_compute. reflexivity.
  - repeat constructor.
Defined.

(** ** Text methods *)

Lemma string_app_cons c (a b : string) : String c a +:+ b = String c (a +:+ b).
Proof. reflexivity. Qed.

Lemma string_app_nil_l (b : string) : EmptyString +:+ b = b.
Proof. reflexivity. Qed.

Lemma string_app_assoc (a b c : string) : (a +:+ b) +:+ c = a +:+ (b +:+ c).
Proof.
  induction a as [| x a IH]; [done |]. rewrite !string_app_cons. by f_equal.
Qed.

Lemma string_app_nil_r (a : string) : a +:+ EmptyString = a.
Proof. induction a as [| x a IH]; [done |]. rewrite string_app_cons. by f_equal. Qed.

Lemma string_snoc_app (a : string) c (b : string) :
  (a +:+ String c EmptyString) +:+ b = a +:+ String c b.
Proof. by rewrite string_app_assoc. Qed.

Lemma all_chars_app P (a b : string) :
  all_chars P (a +:+ b) = all_chars P a && all_chars P b.
Proof.
  induction a as [| x a IH]; [done |].
  rewrite string_app_cons. cbn. by rewrite IH, andb_assoc.
Qed.

Lemma all_chars_impl (P Q : Ascii.ascii -> bool) (s : string) :
  (forall c, P c = true -> Q c = true) -> all_chars P s = true -> all_chars Q s = true.
Proof.
  intros HPQ. induction s as [| c s IH]; cbn; [done |].
  intros [Hc Hs]%andb_true_iff. by rewrite (HPQ c Hc), IH.
Qed.

Lemma linebreak_isspace c : is_linebreak c = true -> isspace c = true.
Proof. destruct c as [[] [] [] [] [] [] [] []]; vm_compute; done. Qed.

Lemma all_chars_spaces P n : P SP = true -> all_chars P (spaces n) = true.
Proof.
  intros Hspace. unfold spaces. generalize 0%nat.
  induction n as [| n IH]; intros first; cbn; [done |]. by rewrite Hspace, IH.
Qed.

Lemma spaces_S n : spaces (S n) = String SP (spaces n).
Proof.
  unfold spaces. cbn [seq foldr]. f_equal.
  generalize 0%nat. induction n as [| n IH]; intros first; cbn; [done |]. by rewrite IH.
Qed.

(** *** [split] *)

Lemma split_from_word word t s :
  all_chars (fun c => negb (isspace c)) t = true ->
  split_from word (t +:+ s) = split_from (word +:+ t) s.
Proof.
  revert word. induction t as [| c t IH]; intros word Hclean.
  - by rewrite string_app_nil_l, string_app_nil_r.
  - cbn in Hclean. apply andb_true_iff in Hclean as [Hc Ht].
    apply negb_true_iff in Hc. rewrite string_app_cons. cbn [split_from].
    rewrite Hc, IH by done. by rewrite string_snoc_app.
Qed.

Lemma split_from_blank word ws s :
  all_chars isspace ws = true -> ws <> EmptyString -> word <> EmptyString ->
  split_from word (ws +:+ s) = word :: split_from EmptyString s.
Proof.
  intros Hws Hne Hword. destruct ws as [| c ws]; [done |].
  rewrite string_app_cons. cbn in *.
  apply andb_true_iff in Hws as [-> Hws]. destruct word; [done |]. f_equal.
  clear Hne. induction ws as [| c' ws IH]; [done |].
  rewrite string_app_cons. cbn in *.
  apply andb_true_iff in Hws as [-> Hws]. by apply IH.
Qed.

Lemma split_from_trailing word ws :
  all_chars isspace ws = true ->
  split_from word ws = split_from word EmptyString.
Proof.
  intros Hws. destruct ws as [| c ws]; [done |]. cbn in *.
  apply andb_true_iff in Hws as [-> Hws].
  assert (split_from EmptyString ws = []) as ->.
  { induction ws as [| c' ws IH]; cbn; [done |].
    cbn in Hws. apply andb_true_iff in Hws as [-> Hws]. by apply IH. }
  by destruct word.
Qed.

(** The words of a line made of tokens with blanks between them. *)
Lemma str_split_token t ws s :
  is_token t -> all_chars isspace ws = true -> ws <> EmptyString ->
  str_split (t +:+ ws +:+ s) = t :: str_split s.
Proof.
  intros [Hne Hclean] Hws Hblank. unfold str_split.
  rewrite split_from_word by done. rewrite string_app_nil_l.
  by apply split_from_blank.
Qed.

Lemma str_split_last_token t ws :
  is_token t -> all_chars isspace ws = true -> str_split (t +:+ ws) = [t].
Proof.
  intros [Hne Hclean] Hws. unfold str_split.
  rewrite split_from_word by done. rewrite string_app_nil_l.
  rewrite split_from_trailing by done. by destruct t.
Qed.

(** Every word [split] returns is a token. *)
Lemma split_from_tokens s : forall word,
  all_chars (fun c => negb (isspace c)) word = true ->
  Forall is_token (split_from word s).
Proof.
  induction s as [| c s IH]; intros word Hword; cbn.
  - destruct word; [constructor |]. by repeat constructor.
  - destruct (isspace c) eqn:Hc.
    + destruct word; [by apply IH |]. constructor; [done | by apply IH].
    + apply IH. rewrite all_chars_app, Hword. cbn. by rewrite Hc.
Qed.

Lemma str_split_tokens s : Forall is_token (str_split s).
Proof. by apply split_from_tokens. Qed.

(** *** [strip] *)

Lemma str_rstrip_empty s : str_rstrip s = EmptyString -> all_chars isspace s = true.
Proof.
  induction s as [| c s IH]; cbn; [done |].
  destruct (str_rstrip s); [| done]. destruct (isspace c); [| done].
  intros _. by rewrite IH.
Qed.

Lemma split_from_rstrip s : forall word,
  split_from word (str_rstrip s) = split_from word s.
Proof.
  induction s as [| c s IH]; intros word; [done |]. cbn [str_rstrip].
  destruct (str_rstrip s) as [| c' kept] eqn:Hkept.
  - pose proof (str_rstrip_empty s Hkept) as Hblank.
    destruct (isspace c) eqn:Hc; cbn; rewrite Hc.
    + rewrite (split_from_trailing EmptyString s) by done. by destruct word.
    + by rewrite (split_from_trailing _ s) by done.
  - cbn. destruct (isspace c); [destruct word |]; by rewrite <- IH.
Qed.

Lemma split_from_lstrip s :
  split_from EmptyString (str_lstrip s) = split_from EmptyString s.
Proof.
  induction s as [| c s IH]; [done |]. cbn [str_lstrip].
  destruct (isspace c) eqn:Hc; [| done]. cbn [split_from]. by rewrite Hc.
Qed.

(** Stripping a line changes nothing for [split]. *)
Lemma str_split_strip s : str_split (str_strip s) = str_split s.
Proof. unfold str_split, str_strip. by rewrite split_from_rstrip, split_from_lstrip. Qed.

(** *** [splitlines] *)

Lemma splitlines_from_line l : forall line s,
  no_linebreak l ->
  splitlines_from line (l +:+ String LF s) = (line +:+ l) :: splitlines_from EmptyString s.
Proof.
  unfold no_linebreak. induction l as [| c l IH]; intros line s Hl.
  - rewrite string_app_nil_l, string_app_nil_r. cbn. by destruct s.
  - cbn in Hl. apply andb_true_iff in Hl as [Hc Hl]. apply negb_true_iff in Hc.
    rewrite string_app_cons. cbn [splitlines_from].
    rewrite Hc, IH by done. by rewrite string_snoc_app.
Qed.

Lemma str_splitlines_line l s :
  no_linebreak l -> str_splitlines (l +:+ String LF s) = l :: str_splitlines s.
Proof. intros Hl. unfold str_splitlines. by rewrite splitlines_from_line. Qed.

Lemma token_no_linebreak t : is_token t -> no_linebreak t.
Proof.
  intros [_ Hclean]. unfold no_linebreak. eapply all_chars_impl; [| exact Hclean].
  intros c Hc. apply negb_true_iff. apply negb_true_iff in Hc.
  destruct (is_linebreak c) eqn:Hbreak; [| done].
  by rewrite (linebreak_isspace c Hbreak) in Hc.
Qed.
Lemma str_split_one_token t : is_token t -> str_split t = [t].
Proof.
  intros Ht. rewrite <- (string_app_nil_r t) at 1. by apply str_split_last_token.
Qed.

(** ** [get_installed_software] *)

(** A loop whose body only appends what [f] makes of the element. *)
Lemma for_each_appends {A} (f : A -> option (pyval * pyval)) (body : A -> block ()) xs :
  (forall x st, body x st
                = ({| commands := commands st;
                      software_list := software_list st ++ option_list (f x) |}, Return tt)) ->
  forall st, for_each xs body st
             = ({| commands := commands st;
                   software_list := software_list st ++ omap f xs |}, Return tt).
Proof.
  intros Hbody. induction xs as [| x xs IH]; intros st.
  - cbn. rewrite app_nil_r. by destruct st.
  - cbn [for_each]. unfold block_bind. rewrite Hbody, IH. cbn [commands software_list].
    rewrite <- app_assoc. do 3 f_equal. cbn. by destruct (f x).
Qed.

Lemma columns_line_appends line st :
  columns_line line st
  = ({| commands := commands st;
        software_list := software_list st ++ option_list (columns_entry line) |}, Return tt).
Proof.
  unfold columns_line, columns_entry.
  destruct (str_split line) as [| name [| version parts]]; cbn;
    rewrite ?app_nil_r; by destruct st.
Qed.

Lemma wmic_line_appends line st :
  wmic_line line st
  = ({| commands := commands st;
        software_list := software_list st ++ option_list (wmic_entry line) |}, Return tt).
Proof.
  unfold wmic_line, wmic_entry. rewrite str_split_strip.
  destruct (String.eqb (str_strip line) EmptyString) eqn:Hblank; cbn [negb].
  - apply String.eqb_eq in Hblank.
    rewrite <- (str_split_strip line), Hblank. cbn. rewrite app_nil_r. by destruct st.
  - destruct (2 <=? length (str_split line))%nat; cbn; rewrite ?app_nil_r; by destruct st.
Qed.

Lemma profiler_app_dict app st :
  profiler_app (PDict app) st
  = ({| commands := commands st;
        software_list := software_list st ++ option_list (profiler_entry app) |}, Return tt).
Proof.
  unfold profiler_app, profiler_entry, block_bind, eval, py_or. cbn [dict_get].
  destruct (truthy (default PNone (app !! "_name"%string))) eqn:Hfirst; cbn.
  - rewrite Hfirst. cbn. by destruct st.
  - destruct (truthy (default PNone (app !! "name"%string))); cbn;
      rewrite ?app_nil_r; by destruct st.
Qed.

Lemma profiler_app_other app st :
  (forall d, app <> PDict d) -> exists e, profiler_app app st = (st, Raise e).
Proof.
  intros Hother. exists AttributeError. unfold profiler_app, block_bind, eval.
  destruct app; try done. by destruct (Hother d).
Qed.

Section ScanFacts.

Variable subprocess_run : list string -> result string.
Variable json_loads : string -> result pyval.

Lemma query_outcome command st :
  query subprocess_run command st
  = match subprocess_run command with
    | Return stdout =>
        ({| commands := commands st ++ [command];
            software_list := software_list st
                             ++ omap columns_entry (str_splitlines stdout) |}, Return tt)
    | Raise e =>
        ({| commands := commands st ++ [command]; software_list := software_list st |},
         Raise e)
    end.
Proof.
  unfold query, block_bind, run_command. destruct (subprocess_run command) as [stdout | e].
  - by rewrite (for_each_appends columns_entry _ _ columns_line_appends).
  - done.
Qed.

Lemma get_installed_software_linux :
  get_installed_software subprocess_run json_loads "Linux"
  = match subprocess_run dpkg_command with
    | Return stdout =>
        {| commands := [dpkg_command];
           software_list := omap columns_entry (str_splitlines stdout) |}
    | Raise _ =>
        {| commands := [dpkg_command; rpm_command];
           software_list := match subprocess_run rpm_command with
                            | Return stdout => omap columns_entry (str_splitlines stdout)
                            | Raise _ => []
                            end |}
    end.
Proof.
  unfold get_installed_software. cbn [String.eqb Ascii.eqb Bool.eqb andb].
  change (String.eqb "Linux" "Windows") with false.
  change (String.eqb "Linux" "Darwin") with false.
  change (String.eqb "Linux" "Linux") with true. cbn match.
  unfold block_try at 1. unfold linux_branch, block_try. rewrite query_outcome.
  destruct (subprocess_run dpkg_command) as [stdout | e]; [done |].
  rewrite query_outcome. by destruct (subprocess_run rpm_command).
Qed.

Lemma get_installed_software_windows :
  get_installed_software subprocess_run json_loads "Windows"
  = {| commands := [wmic_command];
       software_list := match subprocess_run wmic_command with
                        | Return stdout => omap wmic_entry (drop 1 (str_splitlines stdout))
                        | Raise _ => []
                        end |}.
Proof.
  unfold get_installed_software.
  change (String.eqb "Windows" "Windows") with true. cbn match.
  unfold block_try, windows_branch, block_bind, run_command.
  destruct (subprocess_run wmic_command) as [stdout | e]; [| done].
  by rewrite (for_each_appends wmic_entry _ _ wmic_line_appends).
Qed.

End ScanFacts.
Lemma columns_entry_line name version :
  is_token name -> is_token version ->
  columns_entry (name +:+ String SP version) = Some (PStr name, PStr version).
Proof.
  intros Hname Hversion. unfold columns_entry.
  change (String SP version) with (String SP EmptyString +:+ version).
  rewrite str_split_token by done. by rewrite str_split_one_token.
Qed.

Lemma listing_lines packages :
  Forall (fun p => is_token p.1 /\ is_token p.2) packages ->
  omap columns_entry (str_splitlines (listing packages))
  = (fun p => (PStr p.1, PStr p.2)) <$> packages.
Proof.
  induction 1 as [| [name version] packages [Hname Hversion] _ IH]; [done |].
  cbn [listing foldr fst snd]. fold (listing packages).
  rewrite <- string_app_cons, <- string_app_assoc.
  rewrite str_splitlines_line.
  - cbn [omap list_omap]. rewrite columns_entry_line by done. cbn. by rewrite IH.
  - unfold no_linebreak. rewrite all_chars_app. cbn [all_chars].
    rewrite (token_no_linebreak _ Hname), (token_no_linebreak _ Hversion). done.
Qed.

(** X12: what [dpkg-query] prints with the format of the source is read back
    exactly.  When the command returns one line [name version] per package,
    names and versions being words without whitespace, the function runs that
    one command and returns the packages, in order. *)
Theorem linux_listing_read_back
    (subprocess_run : list string -> result string) (json_loads : string -> result pyval)
    (packages : list (string * string)) :
  Forall (fun p => is_token p.1 /\ is_token p.2) packages ->
  subprocess_run dpkg_command = Return (listing packages) ->
  get_installed_software subprocess_run json_loads "Linux"
  = {| commands := [dpkg_command];
       software_list := (fun p => (PStr p.1, PStr p.2)) <$> packages |}.
Proof.
  intros Hpackages Hrun. rewrite get_installed_software_linux, Hrun.
  by rewrite listing_lines.
Qed.

Lemma linux_listing_read_back_witness :
  software_list
    (get_installed_software
       (fun _ => Return (listing [("vim", "9.1"); ("curl", "8.5")]%string))
       Sample.json_loads "Linux")
  = [(PStr "vim", PStr "9.1"); (PStr "curl", PStr "8.5")].
Proof.
  rewrite (linux_listing_read_back
             (fun _ => Return (listing [("vim", "9.1"); ("curl", "8.5")]%string))
             Sample.json_loads [("vim", "9.1"); ("curl", "8.5")]%string).
  - reflexivity.
  - repeat constructor; done.
  - reflexivity.
Defined.

(** X13: on Linux [rpm] is queried exactly when the [dpkg-query] call raises,
    and then the list comes from the output of [rpm] alone (empty if that
    call raises too).  When [dpkg-query] returns, whatever it printed, [rpm]
    is never run. *)
Theorem linux_falls_back_to_rpm_on_exception
    (subprocess_run : list string -> result string) (json_loads : string -> result pyval) :
  let scanned := get_installed_software subprocess_run json_loads "Linux" in
  (forall stdout, subprocess_run dpkg_command = Return stdout ->
     commands scanned = [dpkg_command] /\
     software_list scanned = omap columns_entry (str_splitlines stdout)) /\
  (forall e stdout, subprocess_run dpkg_command = Raise e ->
     subprocess_run rpm_command = Return stdout ->
     commands scanned = [dpkg_command; rpm_command] /\
     software_list scanned = omap columns_entry (str_splitlines stdout)) /\
  (forall e e', subprocess_run dpkg_command = Raise e ->
     subprocess_run rpm_command = Raise e' ->
     commands scanned = [dpkg_command; rpm_command] /\ software_list scanned = []).
Proof.
  intros scanned. subst scanned. rewrite get_installed_software_linux.
  split; [| split].
  - by intros stdout ->.
  - by intros e stdout -> ->.
  - by intros e e' -> ->.
Qed.

Lemma linux_falls_back_to_rpm_on_exception_witness :
  let subprocess_run := fun command =>
    if bool_decide (command = dpkg_command) then Raise ClientError
    else Return (listing [("bash", "5.2")]%string) in
  get_installed_software subprocess_run Sample.json_loads "Linux"
  = {| commands := [dpkg_command; rpm_command];
       software_list := [(PStr "bash", PStr "5.2")] |}.
Proof.
  intros subprocess_run.
  destruct (linux_falls_back_to_rpm_on_exception subprocess_run Sample.json_loads)
    as (_ & Hfallback & _).
  destruct (Hfallback ClientError (listing [("bash", "5.2")]%string) eq_refl eq_refl)
    as [Hcommands Hlist].
  destruct (get_installed_software subprocess_run Sample.json_loads "Linux")
    as [ran found]. cbn in Hcommands, Hlist. rewrite Hcommands, Hlist.
  vm_compute. reflexivity.
Defined.

Lemma columns_entry_tokens line entry :
  columns_entry line = Some entry ->
  exists name version, entry = (PStr name, PStr version) /\ is_token name /\ is_token version.
Proof.
  unfold columns_entry. pose proof (str_split_tokens line) as Htokens.
  destruct (str_split line) as [| name [| version parts]]; try done.
  intros [= <-]. apply Forall_cons in Htokens as [Hname Htokens].
  apply Forall_cons in Htokens as [Hversion _]. eauto.
Qed.

(** X14: every entry the Linux branch returns is a pair of strings, each a
    word: not empty and free of whitespace. *)
Theorem linux_entries_are_words
    (subprocess_run : list string -> result string) (json_loads : string -> result pyval) :
  Forall (fun entry => exists name version,
            entry = (PStr name, PStr version) /\ is_token name /\ is_token version)
    (software_list (get_installed_software subprocess_run json_loads "Linux")).
Proof.
  rewrite get_installed_software_linux. apply Forall_forall. intros entry Hentry.
  assert (forall stdout, entry ∈ omap columns_entry (str_splitlines stdout) ->
            exists name version,
              entry = (PStr name, PStr version) /\ is_token name /\ is_token version)
    as Hlines.
  { intros stdout (line & _ & Hline)%list_elem_of_omap. by eapply columns_entry_tokens. }
  destruct (subprocess_run dpkg_command) as [stdout | e]; cbn in Hentry; [eauto |].
  destruct (subprocess_run rpm_command) as [stdout | e']; [eauto |].
  by apply elem_of_nil in Hentry.
Qed.
(** *** The Windows listing *)

Lemma str_join_cons sep part part' parts :
  str_join sep (part :: part' :: parts) = part +:+ sep +:+ str_join sep (part' :: parts).
Proof. done. Qed.

Lemma str_split_words words ws s :
  words <> [] -> Forall is_token words ->
  all_chars isspace ws = true -> ws <> EmptyString ->
  str_split (str_join " " words +:+ ws +:+ s) = words ++ str_split s.
Proof.
  intros Hne Hwords Hws Hblank. induction Hwords as [| word words Hword Hwords IH]; [done |].
  destruct words as [| word' words].
  - cbn [str_join app]. by apply str_split_token.
  - rewrite str_join_cons, !string_app_assoc. rewrite str_split_token by done.
    cbn [app]. f_equal. by apply IH.
Qed.

Lemma str_join_no_linebreak words :
  Forall is_token words -> no_linebreak (str_join " " words).
Proof.
  unfold no_linebreak. induction 1 as [| word words Hword Hwords IH]; [done |].
  destruct words as [| word' words].
  - by apply token_no_linebreak.
  - rewrite str_join_cons, !all_chars_app, IH, (token_no_linebreak _ Hword). done.
Qed.

Lemma str_join_nonempty words :
  words <> [] -> Forall is_token words -> str_join " " words <> EmptyString.
Proof.
  intros Hne Hwords. destruct Hwords as [| word words [Hword _] _]; [done |].
  destruct words; [done |]. rewrite str_join_cons. by destruct word.
Qed.

Lemma wmic_entry_line row :
  row_ok row ->
  wmic_entry (wmic_line_of row)
  = Some (PStr (str_join " " (name_words row)), PStr (row_version row)).
Proof.
  intros (Hne & Hwords & Hversion). unfold wmic_entry, wmic_line_of.
  rewrite str_split_words; [| done | done | by apply all_chars_spaces | by rewrite spaces_S].
  rewrite str_split_last_token by (done || by apply all_chars_spaces).
  rewrite length_app, last_snoc, removelast_last. cbn [length default].
  destruct (name_words row); [done |]. cbn [length]. by replace (S _ + 1)%nat with (S (S (length l))) by lia.
Qed.

Lemma wmic_line_no_linebreak row : row_ok row -> no_linebreak (wmic_line_of row).
Proof.
  intros (_ & Hwords & Hversion). unfold no_linebreak, wmic_line_of.
  rewrite !all_chars_app, (str_join_no_linebreak _ Hwords), (token_no_linebreak _ Hversion).
  by rewrite !all_chars_spaces.
Qed.

Lemma wmic_table_lines header rows :
  no_linebreak header -> Forall row_ok rows ->
  str_splitlines (wmic_table header rows) = header :: (wmic_line_of <$> rows).
Proof.
  intros Hheader Hrows. unfold wmic_table. rewrite str_splitlines_line by done. f_equal.
  induction Hrows as [| row rows Hrow _ IH]; [done |].
  cbn [foldr fmap list_fmap]. rewrite str_splitlines_line by (by apply wmic_line_no_linebreak).
  by rewrite IH.
Qed.

(** X15: the [wmic] table is read back.  When the command prints a header
    line and then one line per product (the words of the name separated by
    single spaces, at least one space, the version, any number of trailing
    spaces), the function skips the header and returns each product with its
    name as printed and its version, in order. *)
Theorem windows_table_read_back
    (subprocess_run : list string -> result string) (json_loads : string -> result pyval)
    (header : string) (rows : list wmic_row) :
  no_linebreak header ->
  Forall row_ok rows ->
  subprocess_run wmic_command = Return (wmic_table header rows) ->
  get_installed_software subprocess_run json_loads "Windows"
  = {| commands := [wmic_command];
       software_list :=
         (fun row => (PStr (str_join " " (name_words row)), PStr (row_version row)))
           <$> rows |}.
Proof.
  intros Hheader Hrows Hrun. rewrite get_installed_software_windows, Hrun.
  rewrite wmic_table_lines by done. cbn [drop]. rewrite drop_0. f_equal. clear Hrun.
  induction Hrows as [| row rows Hrow _ IH]; [done |].
  csimpl. rewrite wmic_entry_line by done. csimpl. by rewrite IH.
Qed.

Lemma windows_table_read_back_witness :
  software_list
    (get_installed_software
       (fun _ => Return (wmic_table "Name             Version"
                           [{| name_words := ["Git"; "for"; "Windows"]%string;
                               row_version := "2.43"; gap := 1; trailing := 3 |}]))
       Sample.json_loads "Windows")
  = [(PStr "Git for Windows", PStr "2.43")].
Proof.
  rewrite (windows_table_read_back
             (fun _ => Return (wmic_table "Name             Version"
                                 [{| name_words := ["Git"; "for"; "Windows"]%string;
                                     row_version := "2.43"; gap := 1; trailing := 3 |}]))
             Sample.json_loads "Name             Version"
             [{| name_words := ["Git"; "for"; "Windows"]%string;
                 row_version := "2.43"; gap := 1; trailing := 3 |}]).
  - reflexivity.
  - reflexivity.
  - repeat constructor; done.
  - reflexivity.
Defined.

Lemma omap_length_le {A B} (f : A -> option B) (l : list A) :
  (length (omap f l) <= length l)%nat.
Proof. induction l as [| x l IH]; csimpl; [done |]. destruct (f x); cbn; lia. Qed.

Lemma wmic_entry_words line entry :
  wmic_entry line = Some entry ->
  exists words version,
    entry = (PStr (str_join " " words), PStr version) /\
    words <> [] /\ Forall is_token words /\ is_token version.
Proof.
  unfold wmic_entry. pose proof (str_split_tokens line) as Htokens.
  destruct (str_split line) as [| word parts _] using rev_ind; [done |].
  rewrite length_app. cbn [length].
  destruct (2 <=? length parts + 1)%nat eqn:Hlength; [| done].
  apply Nat.leb_le in Hlength.
  rewrite last_snoc, removelast_last. intros [= <-].
  apply Forall_app in Htokens as [Hparts Hword]. apply Forall_cons in Hword as [Hword _].
  exists parts, word. repeat split; try done; try apply Hword.
  destruct parts; [cbn in Hlength; lia | done].
Qed.

(** X16: every entry the Windows branch returns has a version that is one
    word (not empty, free of whitespace) and a name made of one or more such
    words joined by single spaces; the first line of the output contributes
    no entry. *)
Theorem windows_entries_are_words
    (subprocess_run : list string -> result string) (json_loads : string -> result pyval) :
  let scanned := get_installed_software subprocess_run json_loads "Windows" in
  Forall (fun entry => exists words version,
            entry = (PStr (str_join " " words), PStr version) /\
            words <> [] /\ Forall is_token words /\ is_token version)
    (software_list scanned) /\
  (forall stdout, subprocess_run wmic_command = Return stdout ->
     (length (software_list scanned) <= length (str_splitlines stdout) - 1)%nat).
Proof.
  intros scanned. subst scanned. rewrite get_installed_software_windows. cbn [software_list].
  split.
  - apply Forall_forall. intros entry Hentry.
    destruct (subprocess_run wmic_command) as [stdout | e].
    + apply list_elem_of_omap in Hentry as (line & _ & Hline). by eapply wmic_entry_words.
    + by apply elem_of_nil in Hentry.
  - intros stdout ->. etrans; [apply omap_length_le |]. by rewrite length_drop.
Qed.
(** *** The macOS listing *)

Lemma for_each_profiler_dicts dicts : forall rest st,
  for_each ((PDict <$> dicts) ++ rest) profiler_app st
  = for_each rest profiler_app
      {| commands := commands st;
         software_list := software_list st ++ omap profiler_entry dicts |}.
Proof.
  induction dicts as [| app dicts IH]; intros rest st.
  - csimpl. rewrite app_nil_r. by destruct st.
  - csimpl. unfold block_bind. rewrite profiler_app_dict, IH. cbn [commands software_list].
    rewrite <- app_assoc. do 3 f_equal. by destruct (profiler_entry app).
Qed.

Lemma profiler_entry_ok app entry : profiler_entry app = Some entry -> entry_ok entry.
Proof.
  unfold profiler_entry, entry_ok, py_or.
  destruct (truthy (default PNone (app !! "_name"%string))) eqn:Hfirst.
  - rewrite Hfirst. intros [= <-]. cbn. split; [done |].
    by destruct (truthy (default PNone (app !! "version"%string))) eqn:Hversion.
  - destruct (truthy (default PNone (app !! "name"%string))) eqn:Hsecond; [| done].
    intros [= <-]. cbn. split; [done |].
    by destruct (truthy (default PNone (app !! "version"%string))) eqn:Hversion.
Qed.

Lemma for_each_profiler_ok apps : forall st,
  Forall entry_ok (software_list st) ->
  Forall entry_ok (software_list (for_each apps profiler_app st).1).
Proof.
  induction apps as [| app apps IH]; intros st Hst; [done |].
  cbn [for_each]. unfold block_bind.
  assert ((exists d, app = PDict d) \/ forall d, app <> PDict d) as [[d ->] | Hother]
    by (destruct app; eauto).
  - rewrite profiler_app_dict. apply IH. cbn. apply Forall_app. split; [done |].
    destruct (profiler_entry d) as [entry |] eqn:Hentry; [| constructor].
    repeat constructor; by eapply profiler_entry_ok.
  - by destruct (profiler_app_other app st Hother) as [e ->].
Qed.

Section DarwinFacts.

Variable subprocess_run : list string -> result string.
Variable json_loads : string -> result pyval.

Lemma get_installed_software_darwin :
  get_installed_software subprocess_run json_loads "Darwin"
  = match subprocess_run profiler_command with
    | Return stdout =>
        match json_loads stdout ≫= fun data =>
              dict_get data "SPApplicationsDataType" (PList []) ≫= iterate with
        | Return apps =>
            (for_each apps profiler_app
               {| commands := [profiler_command]; software_list := [] |}).1
        | Raise _ => {| commands := [profiler_command]; software_list := [] |}
        end
    | Raise _ => {| commands := [profiler_command]; software_list := [] |}
    end.
Proof.
  unfold get_installed_software.
  change (String.eqb "Darwin" "Windows") with false.
  change (String.eqb "Darwin" "Darwin") with true. cbn match.
  unfold block_try at 1. unfold darwin_branch, block_bind, run_command, eval.
  cbn [commands software_list app].
  destruct (subprocess_run profiler_command) as [stdout | e]; [| done].
  destruct (json_loads stdout) as [data | e]; [| done]. cbn.
  destruct (dict_get data "SPApplicationsDataType" (PList [])) as [listed | e]; [| done]. cbn.
  destruct (iterate listed) as [apps | e]; [| done].
  by destruct (for_each apps profiler_app _) as [st [[] | e]].
Qed.

End DarwinFacts.

(** X17: on macOS the records of the listing are read in order up to the
    first element that is not an object; that element and every record after
    it are dropped without an error.  Each record before it contributes its
    [_name], or else its [name], with its [version] or ["Unknown"], provided
    the name counts as true. *)
Theorem darwin_keeps_records_before_a_malformed_one
    (subprocess_run : list string -> result string) (json_loads : string -> result pyval)
    (stdout : string) (data : gmap string pyval) (records : list (gmap string pyval))
    (rest : list pyval) :
  subprocess_run profiler_command = Return stdout ->
  json_loads stdout = Return (PDict data) ->
  data !! "SPApplicationsDataType"%string = Some (PList ((PDict <$> records) ++ rest)) ->
  (rest = [] \/ exists bad later, rest = bad :: later /\ forall d, bad <> PDict d) ->
  get_installed_software subprocess_run json_loads "Darwin"
  = {| commands := [profiler_command]; software_list := omap profiler_entry records |}.
Proof.
  intros Hrun Hloads Hlisted Hrest.
  rewrite get_installed_software_darwin, Hrun, Hloads. cbn. rewrite Hlisted. cbn.
  rewrite for_each_profiler_dicts. cbn [commands software_list app].
  destruct Hrest as [-> | (bad & later & -> & Hbad)]; [done |].
  cbn [for_each]. unfold block_bind.
  by destruct (profiler_app_other bad
                 {| commands := [profiler_command];
                    software_list := omap profiler_entry records |} Hbad) as [e ->].
Qed.

Lemma darwin_keeps_records_before_a_malformed_one_witness :
  let listed := PDict {[ "SPApplicationsDataType"%string :=
    PList [PDict {[ "_name"%string := PStr "Safari" ]}; PInt 3;
           PDict {[ "_name"%string := PStr "Mail" ]}] ]} in
  software_list (get_installed_software (fun _ => Return "{}"%string)
                   (fun _ => Return listed) "Darwin")
  = [(PStr "Safari", PStr "Unknown")].
Proof.
  intros listed.
  rewrite (darwin_keeps_records_before_a_malformed_one
             (fun _ => Return "{}"%string) (fun _ => Return listed) "{}"
             {[ "SPApplicationsDataType"%string :=
                  PList [PDict {[ "_name"%string := PStr "Safari" ]}; PInt 3;
                         PDict {[ "_name"%string := PStr "Mail" ]}] ]}
             [{[ "_name"%string := PStr "Safari" ]}]
             [PInt 3; PDict {[ "_name"%string := PStr "Mail" ]}]).
  - vm_compute. reflexivity.
  - reflexivity.
  - reflexivity.
  - vm_compute. reflexivity.
  - right. eexists _, _. split; [reflexivity | discriminate].
Defined.

Lemma token_truthy t : is_token t -> truthy (PStr t) = true.
Proof. intros [Hne _]. by destruct t. Qed.

(** X18: on every system and whatever the commands and [json.loads] do,
    every entry of the returned list has a name and a version that count as
    true: no entry has an empty or missing name or version. *)
Theorem entries_have_name_and_version
    (subprocess_run : list string -> result string) (json_loads : string -> result pyval)
    (system : string) :
  Forall entry_ok (software_list (get_installed_software subprocess_run json_loads system)).
Proof.
  destruct (String.eqb system "Windows") eqn:Hwindows;
    [apply String.eqb_eq in Hwindows as -> |
     destruct (String.eqb system "Darwin") eqn:Hdarwin;
       [apply String.eqb_eq in Hdarwin as -> |
        destruct (String.eqb system "Linux") eqn:Hlinux;
          [apply String.eqb_eq in Hlinux as -> |]]].
  - rewrite get_installed_software_windows. cbn [software_list].
    destruct (subprocess_run wmic_command) as [stdout | e]; [| constructor].
    apply Forall_forall. intros entry (line & _ & Hline)%list_elem_of_omap.
    apply wmic_entry_words in Hline as (words & version & -> & Hne & Hwords & Hversion).
    split; cbn [fst snd]; [| by apply token_truthy].
    pose proof (str_join_nonempty words Hne Hwords). cbn. by destruct (str_join " " words).
  - rewrite get_installed_software_darwin.
    destruct (subprocess_run profiler_command) as [stdout | e]; [| constructor].
    destruct (_ ≫= _) as [apps | e]; [| constructor].
    apply for_each_profiler_ok. constructor.
  - rewrite get_installed_software_linux.
    assert (forall stdout, Forall entry_ok (omap columns_entry (str_splitlines stdout)))
      as Hlines.
    { intros stdout. apply Forall_forall. intros entry (line & _ & Hline)%list_elem_of_omap.
      apply columns_entry_tokens in Hline as (name & version & -> & Hname & Hversion).
      split; by apply token_truthy. }
    destruct (subprocess_run dpkg_command) as [stdout | e]; cbn [software_list]; [done |].
    destruct (subprocess_run rpm_command) as [stdout | e']; [done | constructor].
  - unfold get_installed_software. rewrite Hwindows, Hdarwin, Hlinux. constructor.
Qed.

(** X19: without a usable listing the result is the empty list, and nothing
    is raised or retried: on a system other than Windows, Darwin and Linux
    no command is run at all; when the one command of the Windows or of the
    macOS branch raises, or when the macOS output is not JSON or not an
    object, the list is empty after that single command. *)
Theorem no_listing_gives_the_empty_list
    (subprocess_run : list string -> result string) (json_loads : string -> result pyval) :
  (forall system,
     system <> "Windows"%string -> system <> "Darwin"%string -> system <> "Linux"%string ->
     get_installed_software subprocess_run json_loads system
     = {| commands := []; software_list := [] |}) /\
  (forall e, subprocess_run wmic_command = Raise e ->
     get_installed_software subprocess_run json_loads "Windows"
     = {| commands := [wmic_command]; software_list := [] |}) /\
  (forall e, subprocess_run profiler_command = Raise e ->
     get_installed_software subprocess_run json_loads "Darwin"
     = {| commands := [profiler_command]; software_list := [] |}) /\
  (forall stdout, subprocess_run profiler_command = Return stdout ->
     (forall d, json_loads stdout <> Return (PDict d)) ->
     get_installed_software subprocess_run json_loads "Darwin"
     = {| commands := [profiler_command]; software_list := [] |}).
Proof.
  split; [| split; [| split]].
  - intros system Hwindows Hdarwin Hlinux. unfold get_installed_software.
    apply String.eqb_neq in Hwindows, Hdarwin, Hlinux.
    by rewrite Hwindows, Hdarwin, Hlinux.
  - intros e Hrun. by rewrite get_installed_software_windows, Hrun.
  - intros e Hrun. by rewrite get_installed_software_darwin, Hrun.
  - intros stdout Hrun Hdata. rewrite get_installed_software_darwin, Hrun.
    destruct (json_loads stdout) as [data | e]; [| done].
    destruct data; try done. by destruct (Hdata d).
Qed.

(** ** The table of the window *)

(** X20: on a table with at least one row [update_table_row] raises nothing
    and keeps the number of rows.  It writes into row
    [min(row, rowCount - 1)], so that an index beyond the table overwrites
    the last row; there it replaces the status and the analysis by [safety]
    and [rca], both with one and the same background colour, and leaves the
    first two columns and the hidden flag as they are; every other row is
    untouched. *)
Theorem update_table_row_touches_one_row
    (table : list table_row) (row : nat) (safety rca : string) :
  table <> [] ->
  let target := Nat.min row (length table - 1) in
  exists table' old,
    update_table_row table row safety rca = Return table' /\
    length table' = length table /\
    table !! target = Some old /\
    table' !! target
    = Some {| column0 := column0 old; column1 := column1 old;
              column2 := {| text := safety; background := Some (colour_of safety) |};
              column3 := {| text := rca; background := Some (colour_of safety) |};
              row_hidden := row_hidden old |} /\
    (forall k, k <> target -> table' !! k = table !! k).
Proof.
  intros Hrows target.
  assert (target < length table)%nat as Htarget.
  { subst target. destruct table; [done |]. cbn [length]. lia. }
  destruct (lookup_lt_is_Some_2 table target Htarget) as [old Hold].
  eexists _, old. split.
  - unfold update_table_row. destruct table; [done |]. reflexivity.
  - fold target. split; [apply length_alter |]. split; [done |]. split.
    + by rewrite list_lookup_alter_eq, Hold.
    + intros k Hk. by apply list_lookup_alter_ne.
Qed.

Lemma update_table_row_touches_one_row_witness :
  let blank := {| text := EmptyString; background := None |} in
  let waiting name := {| column0 := {| text := name; background := None |};
                         column1 := blank;
                         column2 := {| text := "Checking..."; background := None |};
                         column3 := blank; row_hidden := false |} in
  exists table' old,
    update_table_row [waiting "vim"%string; waiting "git"%string] 7 "safe" "none"
    = Return table' /\
    length table' = 2%nat /\
    [waiting "vim"%string; waiting "git"%string] !! 1%nat = Some old /\
    table' !! 1%nat
    = Some {| column0 := column0 old; column1 := column1 old;
              column2 := {| text := "safe"; background := Some (colour_of "safe") |};
              column3 := {| text := "none"; background := Some (colour_of "safe") |};
              row_hidden := row_hidden old |} /\
    (forall k, k <> 1%nat ->
       table' !! k = [waiting "vim"%string; waiting "git"%string] !! k).
Proof.
  intros blank waiting.
  apply (update_table_row_touches_one_row
           [waiting "vim"%string; waiting "git"%string] 7 "safe" "none").
  discriminate.
Defined.

Lemma filter_loop wanted (pending : list table_row) : forall ready,
  foldl (fun t row => alter (filter_row wanted) row t) (ready ++ pending)
    (seq (length ready) (length pending))
  = ready ++ (filter_row wanted <$> pending).
Proof.
  induction pending as [| r pending IH]; intros ready; [done |].
  cbn [length seq foldl].
  rewrite alter_app_r_alt by lia. rewrite Nat.sub_diag. cbn [alter list_alter].
  specialize (IH (ready ++ [filter_row wanted r])).
  rewrite length_app, Nat.add_1_r, <- !app_assoc in IH. cbn [app] in IH.
  rewrite IH. by rewrite fmap_cons.
Qed.

(** The loop over the row numbers treats every row by itself. *)
Lemma filter_table_rows search table :
  filter_table search table = filter_row (str_lower search) <$> table.
Proof. unfold filter_table. apply (filter_loop _ table []). Qed.

Lemma prefix_nil s : String.prefix EmptyString s = true.
Proof. by destruct s. Qed.

Lemma prefix_refl s : String.prefix s s = true.
Proof.
  induction s as [| c s IH]; [done |]. cbn. rewrite IH.
  by destruct (Ascii.ascii_dec c c).
Qed.

(** X21: filters do not pile up.  [filter_table] decides for every row anew
    from the current search text alone, so that a second filter undoes the
    first; it never changes a cell or the number of rows. *)
Theorem filter_table_depends_on_the_last_search (search search' : string)
    (table : list table_row) :
  filter_table search' (filter_table search table) = filter_table search' table /\
  length (filter_table search table) = length table /\
  (forall k r, table !! k = Some r ->
     exists r', filter_table search table !! k = Some r' /\
                column0 r' = column0 r /\ column1 r' = column1 r /\
                column2 r' = column2 r /\ column3 r' = column3 r).
Proof.
  rewrite !filter_table_rows. split; [| split].
  - rewrite <- list_fmap_compose. by apply list_fmap_ext.
  - apply length_fmap.
  - intros k r Hk. exists (filter_row (str_lower search) r).
    by rewrite list_lookup_fmap, Hk.
Qed.

(** X22: an empty search text shows every row, and so does, for a row, the
    text of its own first column. *)
Theorem filter_table_shows_matching_rows (table : list table_row) :
  Forall (fun r => row_hidden r = false) (filter_table EmptyString table) /\
  (forall k r, table !! k = Some r ->
     exists r', filter_table (text (column0 r)) table !! k = Some r' /\
                row_hidden r' = false).
Proof.
  split.
  - rewrite filter_table_rows. apply Forall_fmap, Forall_forall. intros r _. cbn.
    destruct (str_lower (text (column0 r))); cbn; by rewrite ?prefix_nil.
  - intros k r Hk. rewrite filter_table_rows, list_lookup_fmap, Hk. eexists. split; [done |].
    cbn. destruct (str_lower (text (column0 r))) eqn:Hname; [done |].
    cbn [contains]. by rewrite prefix_refl.
Qed.

Lemma upper_codes_lower_char c : upper_codes (lower_char c) = upper_codes c.
Proof. destruct c as [[] [] [] [] [] [] [] []]; vm_compute; reflexivity. Qed.

Lemma str_upper_lower s : str_upper (str_lower s) = str_upper s.
Proof.
  unfold str_upper. induction s as [| c s IH]; [done |].
  cbn [str_lower String.list_ascii_of_string flat_map].
  by rewrite upper_codes_lower_char, IH.
Qed.

(** X23: the background colour does not depend on the letter case of the
    verdict: SAFE in any mix of cases is green and HARMFUL in any mix of
    cases is red. *)
Theorem colour_ignores_letter_case (safety : string) :
  colour_of (str_lower safety) = colour_of safety /\
  (str_lower safety = "safe"%string -> colour_of safety = green) /\
  (str_lower safety = "harmful"%string -> colour_of safety = red).
Proof.
  assert (colour_of (str_lower safety) = colour_of safety) as Hcase
    by (unfold colour_of; by rewrite str_upper_lower).
  split; [done |]. split; intros Hlower; rewrite <- Hcase, Hlower; reflexivity.
Qed.
